(** * TSP solvers of [tsp_solver.py]: brute force and nearest neighbour

    A shallow embedding of the two solvers and of the per-size reporting
    code of the experiment harness, followed by the properties the
    specification states about them.

    Numbers.  Matrix entries are modelled as exact integers ([Z], the
    arithmetic of Python's [int]); [float('inf')] is the extra value
    [Inf].  Rounding of binary floating point is outside the model: what is
    proved here about sums is proved of matrices of [int]s.  Where Python
    turns an [int] into a float, to format it or to divide, the range of
    floats is modelled, since leaving it raises [OverflowError].

    Exceptions.  Every Python operation that can raise is modelled by a
    function into [outcome], whose [Raise] case carries the exception. *)

From Stdlib Require Import ZArith QArith Lia.
From stdpp Require Import base tactics option list numbers strings.
From stdpp Require Import sorting.
From Equations Require Import Equations.

#[local] Open Scope Z_scope.

(** ** Exceptions and results *)

Inductive exn : Set :=
| IndexError
| KeyError
| ValueError
| TypeError
| ZeroDivisionError
| OverflowError.

Inductive outcome (A : Type) : Type :=
| Return (a : A)
| Raise (e : exn).
Arguments Return {A} a.
Arguments Raise {A} e.

#[global] Instance outcome_ret : MRet outcome := @Return.

#[global] Instance outcome_bind : MBind outcome := λ A B k m,
  match m with
  | Return a => k a
  | Raise e => Raise e
  end.

(** ** Distance matrix *)

(** [distances] is a list of rows; indices are location numbers. *)
Definition matrix : Type := list (list Z).

(** [distances[i][j]]: each of the two subscripts raises [IndexError] when
    it is out of range (all indices used by the solvers are non-negative). *)
Definition getitem {A : Type} (l : list A) (i : nat) : outcome A :=
  match l !! i with
  | Some x => Return x
  | None => Raise IndexError
  end.

Definition getitem2 (distances : matrix) (i j : nat) : outcome Z :=
  row ← getitem distances i;
  getitem row j.

(** A square [n]×[n] matrix. *)
Definition square (n : nat) (distances : matrix) : Prop :=
  length distances = n ∧ Forall (λ row, length row = n) distances.

(** ** [itertools.permutations]

    The library iterator used by the exact solver is not part of the
    repository; it is modelled from its documentation: the [r]-length
    permutations of the pool, emitted in lexicographic order of the
    positions of the pool.  [selections l] lists, in order of position,
    every way of picking one element of [l] together with the remaining
    elements in their original order. *)

Fixpoint selections {A : Type} (l : list A) : list (A * list A) :=
  match l with
  | [] => []
  | x :: xs => (x, xs) :: ((λ '(y, ys), (y, x :: ys)) <$> selections xs)
  end.

Fixpoint permutations_r {A : Type} (r : nat) (pool : list A) : list (list A) :=
  match r with
  | O => [[]]
  | S r' =>
      '(x, rest) ← selections pool;
      cons x <$> permutations_r r' rest
  end.

Definition permutations {A : Type} (pool : list A) : list (list A) :=
  permutations_r (length pool) pool.

(** ** Exact solver: [tsp_brute_force] *)

(** [best_distance] starts as [float('inf')] and afterwards holds sums of
    matrix entries. *)
Inductive number : Set :=
| Inf
| Fin (z : Z).

(** [distance < best_distance] *)
Definition lt_number (distance : Z) (best : number) : bool :=
  match best with
  | Inf => true
  | Fin b => distance <? b
  end.

(** The inner loop [for i in range(len(route) - 1):
    distance += distances[route[i]][route[i + 1]]], started with the
    accumulator [distance]. *)
Fixpoint route_distance (distances : matrix) (distance : Z) (route : list nat)
  : outcome Z :=
  match route with
  | a :: (b :: _) as rest =>
      d ← getitem2 distances a b;
      route_distance distances (distance + d) rest
  | _ => Return distance
  end.

(** The wall clock: [clock i] is what the [i]-th call of [time.time()] made by
    one invocation returns.  Call 0 sets [start_time]; the check at the top of
    the iteration that has [routes_checked = k] is call [S k]. *)
Definition clock : Type := nat → Z.

Record bf_state : Type := BfState {
  best_distance : number;
  best_route : option (list nat);
  routes_checked : nat
}.

(** The value returned: [(None, None)] on timeout, else
    [(best_route, best_distance)]. *)
Definition bf_result : Type := option (list nat) * option number.

(** [route[:-1]] *)
Definition drop_last {A : Type} (route : list A) : list A :=
  take (length route - 1) route.

(** The end of the loop body: [if distance < best_distance: ...] and
    [routes_checked += 1]. *)
Definition bf_update (route : list nat) (distance : Z) (st : bf_state)
  : bf_state :=
  if lt_number distance (best_distance st)
  then BfState (Fin distance) (Some (drop_last route)) (S (routes_checked st))
  else BfState (best_distance st) (best_route st) (S (routes_checked st)).

(** The loop over the permutations still to be generated. *)
Fixpoint bf_loop (time : clock) (timeout start_time : Z) (distances : matrix)
    (start : nat) (perms : list (list nat)) (st : bf_state)
  : outcome bf_result :=
  match perms with
  | [] => Return (best_route st, Some (best_distance st))
  | perm :: perms' =>
      if timeout <? time (S (routes_checked st)) - start_time
      then Return (None, None)
      else
        let route := [start] ++ perm ++ [start] in
        distance ← route_distance distances 0 route;
        bf_loop time timeout start_time distances start perms'
                (bf_update route distance st)
  end.

Definition tsp_brute_force (time : clock) (distances : matrix) (timeout : Z)
  : outcome bf_result :=
  let n := length distances in
  let locations := seq 0 n in
  let start := 0%nat in
  let other_locations := filter (λ i, i ≠ start) locations in
  let start_time := time 0%nat in
  bf_loop time timeout start_time distances start
          (permutations other_locations) (BfState Inf None 0).

(** ** Approximate solver: [tsp_nearest_neighbor] *)

(** [unvisited] is a Python [set] of small non-negative integers built by
    [set(range(n))]; CPython iterates such a set in increasing order, also
    after removals, so it is modelled by the increasing list of its
    members.  [set.remove] raises [KeyError] for a non-member. *)
Definition set_remove (x : nat) (s : list nat) : outcome (list nat) :=
  if decide (x ∈ s) then Return (filter (λ y, y ≠ x) s) else Raise KeyError.

(** [min(iterable, key=...)]: the first item, in iteration order, whose key
    is minimal; [ValueError] on an empty iterable. *)
Fixpoint min_loop (key : nat → outcome Z) (minitem : nat) (minval : Z)
    (items : list nat) : outcome nat :=
  match items with
  | [] => Return minitem
  | item :: items' =>
      val ← key item;
      if val <? minval then min_loop key item val items'
      else min_loop key minitem minval items'
  end.

Definition py_min (items : list nat) (key : nat → outcome Z) : outcome nat :=
  match items with
  | [] => Raise ValueError
  | item :: items' => val ← key item; min_loop key item val items'
  end.

Record nn_state : Type := NnState {
  unvisited : list nat;
  current : nat;
  route : list nat;
  total_distance : Z
}.

(** One execution of the body of [while unvisited:]. *)
Definition nn_body (distances : matrix) (st : nn_state) : outcome nn_state :=
  nearest ← py_min (unvisited st) (λ x, getitem2 distances (current st) x);
  d ← getitem2 distances (current st) nearest;
  unvisited' ← set_remove nearest (unvisited st);
  Return (NnState unvisited' nearest (route st ++ [nearest])
                  (total_distance st + d)).

(** A value together with the equation that it is the value inspected. *)
Definition inspect {A : Type} (a : A) : {b : A | a = b} := exist _ a eq_refl.

(** The [while unvisited:] loop.  Each iteration removes one member of
    [unvisited], which is the measure of the recursion. *)
Equations? nn_while (distances : matrix) (st : nn_state) : outcome nn_state
  by wf (length (unvisited st)) lt :=
  nn_while distances st with inspect (unvisited st) := {
    | exist _ [] Hempty := Return st
    | exist _ (_ :: _) Hsome with inspect (nn_body distances st) := {
        | exist _ (Raise e) Hraise := Raise e
        | exist _ (Return st') Hbody := nn_while distances st' } }.
Proof.
  (* the recursive call is on a state with a strictly smaller unvisited set *)
  unfold nn_body in Hbody.
  destruct (py_min _ _) as [nearest|]; [|done]. simpl in Hbody.
  destruct (getitem2 _ _ _) as [d|]; [|done]. simpl in Hbody.
  unfold set_remove in Hbody. case_decide as Hin; [|done].
  injection Hbody as <-. simpl.
  apply (length_filter_lt _ _ nearest); [done|]. by intros ?.
Qed.

Definition tsp_nearest_neighbor (distances : matrix) (start : nat)
  : outcome (list nat * Z) :=
  let n := length distances in
  let unvisited := seq 0 n in
  let current := start in
  let route := [current] in
  unvisited ← set_remove current unvisited;
  let total_distance := 0 in
  '(NnState _ current route total_distance) ←
    nn_while distances (NnState unvisited current route total_distance);
  d ← getitem2 distances current start;
  Return (route, total_distance + d).

(** The same function for any [int] given as [start]: a negative number is
    not in [set(range(n))], so [unvisited.remove(current)] raises [KeyError]
    before anything is indexed. *)
Definition tsp_nearest_neighbor_int (distances : matrix) (start : Z)
  : outcome (list nat * Z) :=
  if start <? 0 then Raise KeyError
  else tsp_nearest_neighbor distances (Z.to_nat start).

(** ** Experiment harness

    Only what each reporting mode does with the solvers' results is modelled:
    one iteration of its [for size in sizes] loop, for a matrix already
    loaded.  A printed line is a list of fields; a number formatted with
    [.<digits>f] is kept as the exact value that the formatted float stands
    for and the number of digits. *)

Inductive field : Type :=
| Str (s : string)
| Int (n : Z)
| Fixed (digits : nat) (q : Q)
| FixedInf (digits : nat)
| FixedNegInf (digits : nat).

(** An [int] converts to a float, rounding to nearest, when its magnitude is
    below [2^1024 - 2^970], halfway between the largest float and [2^1024];
    from there on the conversion raises [OverflowError]. *)
Definition float_limit : Z := 2 ^ 1024 - 2 ^ 970.

Definition fits_float (z : Z) : bool := Z.abs z <? float_limit.

(** [f"{v:.<digits>f}"]: [None] does not support the format and raises
    [TypeError]; an [int] is converted to a float first. *)
Definition format_f (digits : nat) (v : option number) : outcome field :=
  match v with
  | None => Raise TypeError
  | Some Inf => Return (FixedInf digits)
  | Some (Fin z) =>
      if fits_float z then Return (Fixed digits (inject_Z z))
      else Raise OverflowError
  end.

(** [(dist_nn / dist_bf) * 100], as an exact value. *)
Definition quality (dist_nn dist_bf : Z) : Q :=
  (inject_Z dist_nn / inject_Z dist_bf) * 100.

(** The float quotient times [100] is the float [inf] (or [-inf]) when the
    rounded quotient exceeds [5764607523034234 * 2^965], the largest float
    whose product with [100.0] is finite; the quotients that round to that
    float or below are those up to the midpoint to the next float,
    [percent_limit]. *)
Definition percent_limit : Z := 11529215046068469 * 2 ^ 964.

(** [f"{(dist_nn / dist_bf) * 100:.1f}"] for a quotient that is a float. *)
Definition percent_field (dist_nn dist_bf : Z) : field :=
  if percent_limit * Z.abs dist_bf <? Z.abs dist_nn
  then (if 0 <? dist_nn * dist_bf then FixedInf 1 else FixedNegInf 1)
  else Fixed 1 (quality dist_nn dist_bf).

(** [dist_nn / dist_bf] for an [int] [dist_nn]: division by [None] is a
    [TypeError], by the float [inf] it converts [dist_nn] to a float, by the
    [int] 0 it is a [ZeroDivisionError], and the true division of two [int]s
    raises [OverflowError] when the rounded quotient is no float. *)
Definition quality_of (dist_nn : Z) (dist_bf : option number) : outcome field :=
  match dist_bf with
  | None => Raise TypeError
  | Some Inf =>
      if fits_float dist_nn then Return (Fixed 1 0) else Raise OverflowError
  | Some (Fin b) =>
      if decide (b = 0) then Raise ZeroDivisionError
      else if float_limit * Z.abs b <=? Z.abs dist_nn then Raise OverflowError
      else Return (percent_field dist_nn b)
  end.

(** Body of the loop of [test_small_cases]. *)
Definition test_small_cases (time : clock) (size : nat) (distances : matrix)
  : outcome (list (list field)) :=
  '(route_bf, dist_bf) ← tsp_brute_force time distances 60;
  f_bf ← format_f 2 dist_bf;
  '(route_nn, dist_nn) ← tsp_nearest_neighbor distances 0;
  f_nn ← format_f 2 (Some (Fin dist_nn));
  q ← quality_of dist_nn dist_bf;
  Return [ [Str "Testing "; Int (Z.of_nat size); Str " locations..."];
           [Str "  Brute Force: Distance = "; f_bf];
           [Str "  Nearest Neighbor: Distance = "; f_nn];
           [Str "  Approximation Quality: "; q; Str "% of optimal"] ].

(** Body of the loop of [time_brute_force]; [elapsed] is the wall-clock time
    measured around the call. *)
Definition time_brute_force (time : clock) (size : nat) (distances : matrix)
    (elapsed : Q) : outcome (list field) :=
  num_routes ← (if decide (size = 0%nat) then Raise ValueError
                else Return (Z.of_nat (fact (size - 1))));
  '(route, distance) ← tsp_brute_force time distances 60;
  match route with
  | None =>
      Return [Int (Z.of_nat size); Int num_routes; Fixed 3 elapsed;
              Str "N/A"; Str "TIMEOUT"]
  | Some _ =>
      f ← format_f 2 distance;
      Return [Int (Z.of_nat size); Int num_routes; Fixed 3 elapsed;
              f; Str "Complete"]
  end.

(** Body of the loop of [time_approximation]. *)
Definition time_approximation (size : nat) (distances : matrix) (elapsed : Q)
  : outcome (list field) :=
  '(route, distance) ← tsp_nearest_neighbor distances 0;
  f ← format_f 2 (Some (Fin distance));
  Return [Int (Z.of_nat size); Fixed 6 elapsed; f].

(** Body of the loop of [compare_all_approaches]. *)
Definition compare_all_approaches (time : clock) (size : nat)
    (distances : matrix) (time_bf time_nn : Q) : outcome (list field) :=
  '(route_bf, dist_bf) ← tsp_brute_force time distances 60;
  '(route_nn, dist_nn) ← tsp_nearest_neighbor distances 0;
  match route_bf with
  | None =>
      f_nn ← format_f 2 (Some (Fin dist_nn));
      Return [Int (Z.of_nat size); Str "TIMEOUT"; f_nn; Str "N/A";
              Str "TIMEOUT"; Fixed 6 time_nn]
  | Some _ =>
      q ← quality_of dist_nn dist_bf;
      f_bf ← format_f 2 dist_bf;
      f_nn ← format_f 2 (Some (Fin dist_nn));
      Return [Int (Z.of_nat size); f_bf; f_nn; q;
              Fixed 3 time_bf; Fixed 6 time_nn]
  end.

(** ** Command line: [main]

    [argv] is [sys.argv] and [data_exists] tells whether the file
    [data/sites_5.json] exists.  [main] either prints the usage, or reports
    the missing data and leaves with [sys.exit(1)], or calls the function of
    one reporting mode ([RunMode]: what that call does, which includes
    leaving through [load_dataset], is not part of this value), or reports an
    unknown option and prints the usage. *)
Inductive mode : Set :=
| TestSmall
| TimeBruteForce
| TimeApproximation
| CompareAll.

Inductive main_action : Set :=
| PrintUsage
| MissingData
| RunMode (m : mode)
| UnknownOption (option : string).

Definition main (argv : list string) (data_exists : bool) : main_action :=
  match argv with
  | _ :: option :: _ =>
      if negb data_exists then MissingData
      else if decide (option = "--test-small") then RunMode TestSmall
      else if decide (option = "--time-brute-force") then RunMode TimeBruteForce
      else if decide (option = "--time-approximation")
           then RunMode TimeApproximation
      else if decide (option = "--compare-all") then RunMode CompareAll
      else if decide (option = "--help") then PrintUsage
      else UnknownOption option
  | _ => PrintUsage
  end.

(** The option that [print_usage] documents for each mode. *)
Definition mode_option (m : mode) : string :=
  match m with
  | TestSmall => "--test-small"
  | TimeBruteForce => "--time-brute-force"
  | TimeApproximation => "--time-approximation"
  | CompareAll => "--compare-all"
  end.

(** ** Reference definitions used to state the properties *)

(** The matrix entry, read without failure (0 outside the matrix). *)
Definition entry (distances : matrix) (i j : nat) : Z :=
  default 0 (distances !! i ≫= (.!! j)).

(** Sum of [distances[route[i]][route[i+1]]] over consecutive elements. *)
Fixpoint path_cost (distances : matrix) (route : list nat) : Z :=
  match route with
  | a :: (b :: _) as rest => entry distances a b + path_cost distances rest
  | _ => 0
  end.

(** ... plus the closing edge [distances[route[N-1]][route[0]]]. *)
Definition tour_cost (distances : matrix) (route : list nat) : Z :=
  match route, last route with
  | first :: _, Some final => path_cost distances route + entry distances final first
  | _, _ => 0
  end.

(** The tours the exact solver ranges over: start 0 followed by a
    permutation of the locations [1..N-1]. *)
Definition is_tour_perm (n : nat) (perm : list nat) : Prop :=
  perm ≡ₚ seq 1 (n - 1).

(** [m] is the minimum of the closed-tour costs over all those tours. *)
Definition is_min_tour_cost (n : nat) (distances : matrix) (m : Z) : Prop :=
  (∃ perm, is_tour_perm n perm ∧ tour_cost distances (0%nat :: perm) = m) ∧
  (∀ perm, is_tour_perm n perm → m ≤ tour_cost distances (0%nat :: perm)).

(** A valid route from [start] with its distance. *)
Definition valid_route (n : nat) (distances : matrix) (start : nat)
    (route : list nat) (distance : Z) : Prop :=
  route ≡ₚ seq 0 n ∧ length route = n ∧ head route = Some start ∧
  distance = tour_cost distances route.

(** What the exact solver's loop body computes for one permutation. *)
Definition closed_cost (distances : matrix) (start : nat) (perm : list nat)
  : outcome Z :=
  route_distance distances 0 ([start] ++ perm ++ [start]).

(** [perm], of cost [c], is the first cheapest entry of [perms]. *)
Definition first_min (distances : matrix) (start : nat)
    (perms : list (list nat)) (perm : list nat) (c : Z) : Prop :=
  ∃ before after,
    perms = before ++ perm :: after ∧
    closed_cost distances start perm = Return c ∧
    (∀ q, q ∈ before → ∃ c', closed_cost distances start q = Return c' ∧ c < c') ∧
    (∀ q, q ∈ after → ∃ c', closed_cost distances start q = Return c' ∧ c ≤ c').

(** Invariant of the approximate solver's loop: the route so far and the
    unvisited set partition the locations, the route starts at [start] and
    ends at [current], and [total_distance] is the cost of the route so far. *)
Definition nn_inv (n : nat) (distances : matrix) (start : nat) (st : nn_state)
  : Prop :=
  route st ++ unvisited st ≡ₚ seq 0 n ∧
  head (route st) = Some start ∧
  last (route st) = Some (current st) ∧
  total_distance st = path_cost distances (route st).

(** A route is greedy when every step goes to a location that is no farther
    from the current one than any location visited later. *)
Definition greedy_route (distances : matrix) (route : list nat) : Prop :=
  ∀ i j a b c,
    (i < j)%nat →
    route !! i = Some a → route !! S i = Some b → route !! j = Some c →
    entry distances a b ≤ entry distances a c.

(** ... and ties are broken towards the lowest location number when, among
    the locations visited later that are equally near, the next one has the
    smallest number. *)
Definition lowest_index_ties (distances : matrix) (route : list nat) : Prop :=
  ∀ i j a b c,
    (i < j)%nat →
    route !! i = Some a → route !! S i = Some b → route !! j = Some c →
    entry distances a c = entry distances a b → (b ≤ c)%nat.

(** The invariant behind both: each step already taken was towards the
    nearest, lowest-numbered location among those then unvisited. *)
Definition nn_greedy (distances : matrix) (st : nn_state) : Prop :=
  ∀ i a b c,
    route st !! i = Some a → route st !! S i = Some b →
    (∃ j, (i < j)%nat ∧ route st !! j = Some c) ∨ c ∈ unvisited st →
    entry distances a b ≤ entry distances a c ∧
    (entry distances a c = entry distances a b → (b ≤ c)%nat).

(** Sample matrices. *)
Definition m1 : matrix := [[0]].
Definition m2 : matrix := [[0; 7]; [7; 0]].
Definition m2_asym : matrix := [[0; 1]; [2; 0]].
Definition m3 : matrix := [[0; 2; 9]; [2; 0; 6]; [9; 6; 0]].
Definition m4 : matrix :=
  [[0; 1; 5; 1]; [1; 0; 1; 5]; [5; 1; 0; 1]; [1; 5; 1; 0]].

Definition m5 : matrix :=
  [[0; 3; 4; 2; 7]; [3; 0; 4; 6; 3]; [4; 4; 0; 5; 8]; [2; 6; 5; 0; 6];
   [7; 3; 8; 6; 0]].

(** A clock that does not advance, one that advances by one unit per
    reading, and one that advances by a hundred. *)
Definition frozen : clock := λ _, 0.
Definition ticking : clock := λ i, Z.of_nat i.
Definition jumping : clock := λ i, 100 * Z.of_nat i.

(** * Properties *)

Example permutations_123 :
  permutations [1; 2; 3]%nat
  = [[1; 2; 3]; [1; 3; 2]; [2; 1; 3]; [2; 3; 1]; [3; 1; 2]; [3; 2; 1]]%nat.
Proof. reflexivity. Qed.

Example permutations_empty : permutations (@nil nat) = [[]].
Proof. reflexivity. Qed.

(** Degenerate and small inputs. *)
Example single_location :
  tsp_brute_force frozen m1 60 = Return (Some [0%nat], Some (Fin 0)) ∧
  tsp_nearest_neighbor m1 0 = Return ([0%nat], 0).
Proof. done. Qed.

Example three_locations :
  tsp_brute_force frozen m3 60 = Return (Some [0; 1; 2]%nat, Some (Fin 17)) ∧
  tsp_nearest_neighbor m3 2 = Return ([2; 1; 0]%nat, 17).
Proof. done. Qed.

Example start_out_of_range : tsp_nearest_neighbor m3 3 = Raise KeyError.
Proof. done. Qed.

Example ragged_matrix :
  tsp_nearest_neighbor [[0]; [1; 0]] 0 = Raise IndexError ∧
  tsp_brute_force frozen [[0]; [1; 0]] 60 = Raise IndexError.
Proof. done. Qed.

(** ** The outcome monad *)

Lemma bind_Return {A B} (m : outcome A) (k : A → outcome B) b :
  m ≫= k = Return b ↔ ∃ a, m = Return a ∧ k a = Return b.
Proof.
  destruct m as [a|e]; simpl.
  - split; [eauto|]. by intros (? & [= <-] & ?).
  - split; [done|]. by intros (? & ? & ?).
Qed.

Lemma bind_Return_l {A B} (a : A) (k : A → outcome B) : Return a ≫= k = k a.
Proof. done. Qed.

(** ** Enumeration of permutations *)

Lemma selections_elem {A} (l : list A) x rest :
  (x, rest) ∈ selections l ↔ ∃ l1 l2, l = l1 ++ x :: l2 ∧ rest = l1 ++ l2.
Proof.
  revert x rest. induction l as [|a l IH]; intros x rest; simpl.
  - split; [by intros ?%elem_of_nil|]. intros ([|??] & ? & ? & _); done.
  - rewrite elem_of_cons, list_elem_of_fmap. split.
    + intros [[= -> ->]|([y ys] & [= -> ->] & Hin)].
      * by exists [], l.
      * apply IH in Hin as (l1 & l2 & -> & ->). by exists (a :: l1), l2.
    + intros ([|b l1] & l2 & Heq & ->); simplify_eq/=; [by left|].
      right. exists (x, l1 ++ l2). split; [done|]. apply IH. eauto.
Qed.

Lemma permutations_r_elem {A} r (l p : list A) :
  length l = r → p ∈ permutations_r r l ↔ p ≡ₚ l.
Proof.
  revert l p. induction r as [|r IH]; intros l p Hlen; simpl.
  - apply nil_length_inv in Hlen as ->. rewrite list_elem_of_singleton.
    split; [by intros ->|]. by intros ?%Permutation_nil_r.
  - rewrite list_elem_of_bind. split.
    + intros ([x rest] & Hp & (l1 & l2 & -> & ->)%selections_elem).
      apply list_elem_of_fmap in Hp as (p' & -> & Hp').
      apply IH in Hp'.
      * by rewrite Hp', Permutation_middle.
      * rewrite length_app in *. simpl in *. lia.
    + intros Hp. destruct p as [|x p'].
      { apply Permutation_length in Hp. simpl in Hp. lia. }
      assert (x ∈ l) as (l1 & l2 & ->)%list_elem_of_split.
      { rewrite <-Hp. by left. }
      rewrite <-Permutation_middle in Hp. apply (inj (cons x)) in Hp.
      exists (x, l1 ++ l2). split; [|apply selections_elem; eauto].
      apply list_elem_of_fmap. exists p'. split; [done|]. apply IH; [|done].
      rewrite length_app in *. simpl in *. lia.
Qed.

(** [permutations pool] lists exactly the rearrangements of [pool]. *)
Lemma permutations_elem {A} (pool p : list A) :
  p ∈ permutations pool ↔ p ≡ₚ pool.
Proof. by apply permutations_r_elem. Qed.

Lemma permutations_nonempty {A} (pool : list A) : permutations pool ≠ [].
Proof.
  intros Hnil. assert (pool ∈ permutations pool) as Hin
    by by apply permutations_elem.
  rewrite Hnil in Hin. by apply elem_of_nil in Hin.
Qed.

Lemma filter_all {A} (P : A → Prop) `{!∀ x, Decision (P x)} (l : list A) :
  Forall P l → filter P l = l.
Proof.
  induction 1 as [|x l Hx _ IH]; [done|].
  by rewrite filter_cons_True, IH.
Qed.

(** The non-start locations are [1..n-1]. *)
Lemma other_locations_seq n :
  filter (λ i, i ≠ 0%nat) (seq 0 n) = seq 1 (n - 1).
Proof.
  destruct n as [|n]; [done|]. simpl. rewrite filter_cons_False by naive_solver.
  rewrite Nat.sub_0_r. apply filter_all. apply Forall_forall.
  intros i ?%elem_of_seq. lia.
Qed.

(** ** Cost of a route on a square matrix *)

Lemma route_distance_cons distances acc (a b : nat) rest :
  route_distance distances acc (a :: b :: rest)
  = getitem2 distances a b ≫=
      λ d, route_distance distances (acc + d) (b :: rest).
Proof. done. Qed.

Lemma path_cost_cons distances (a b : nat) rest :
  path_cost distances (a :: b :: rest)
  = entry distances a b + path_cost distances (b :: rest).
Proof. done. Qed.

Section square_matrix.
Context (n : nat) (distances : matrix) (Hsq : square n distances).

Lemma getitem2_entry (i j : nat) :
  (i < n)%nat → (j < n)%nat →
  getitem2 distances i j = Return (entry distances i j).
Proof using Hsq.
  destruct Hsq as [Hlen Hrows]. intros Hi Hj.
  destruct (lookup_lt_is_Some_2 distances i) as [row Hrow]; [lia|].
  assert (length row = n) as Hr.
  { eapply (proj1 (Forall_forall _ _) Hrows), list_elem_of_lookup_2, Hrow. }
  destruct (lookup_lt_is_Some_2 row j) as [x Hx]; [lia|].
  unfold getitem2, getitem, entry, matrix in *.
  rewrite Hrow. simpl. by rewrite Hx.
Qed.

Lemma route_distance_path (acc : Z) (route : list nat) :
  Forall (λ i, (i < n)%nat) route →
  route_distance distances acc route
  = Return (acc + path_cost distances route).
Proof using Hsq.
  revert acc. induction route as [|a [|b rest] IH]; intros acc Hall.
  - simpl. f_equal. lia.
  - simpl. f_equal. lia.
  - apply Forall_cons in Hall as [Ha Hall].
    pose proof Hall as [Hb _]%Forall_cons.
    rewrite route_distance_cons, getitem2_entry, bind_Return_l by done.
    rewrite IH, path_cost_cons by done. f_equal. lia.
Qed.
End square_matrix.

Lemma path_cost_snoc distances (route : list nat) (x : nat) :
  path_cost distances (route ++ [x])
  = path_cost distances route
    + from_option (λ z, entry distances z x) 0 (last route).
Proof.
  induction route as [|a [|b rest] IH]; [done|simpl; lia|].
  change ((a :: b :: rest) ++ [x]) with (a :: b :: (rest ++ [x])).
  rewrite !path_cost_cons. change (b :: rest ++ [x]) with ((b :: rest) ++ [x]).
  rewrite IH. change (last (a :: b :: rest)) with (last (b :: rest)). lia.
Qed.

(** The closed route [start -> perm -> start] costs what [tour_cost] says for
    the open route [start :: perm]. *)
Lemma path_cost_closed distances (start : nat) (perm : list nat) :
  path_cost distances ([start] ++ perm ++ [start])
  = tour_cost distances (start :: perm).
Proof.
  change ([start] ++ perm ++ [start]) with ((start :: perm) ++ [start]).
  rewrite path_cost_snoc. unfold tour_cost.
  destruct (last (start :: perm)) as [z|] eqn:Hlast; [done|].
  by apply last_None in Hlast.
Qed.

Lemma drop_last_closed (start : nat) (perm : list nat) :
  drop_last ([start] ++ perm ++ [start]) = start :: perm.
Proof.
  unfold drop_last.
  change ([start] ++ perm ++ [start]) with ((start :: perm) ++ [start]).
  rewrite length_app. simpl length.
  replace (S (length perm) + 1 - 1)%nat with (length (start :: perm))
    by (simpl; lia).
  by rewrite take_app_length.
Qed.

(** ** The exact solver's loop *)

Section brute_force.
Context (distances : matrix) (start : nat).

Lemma bf_loop_cons time timeout start_time perm perms st :
  bf_loop time timeout start_time distances start (perm :: perms) st
  = if timeout <? time (S (routes_checked st)) - start_time
    then Return (None, None)
    else closed_cost distances start perm ≫= λ distance,
         bf_loop time timeout start_time distances start perms
                 (bf_update ([start] ++ perm ++ [start]) distance st).
Proof. done. Qed.

Lemma lt_number_trans c c' best :
  c' < c → lt_number c best = true → lt_number c' best = true.
Proof. destruct best; simpl; [done|]. rewrite !Z.ltb_lt. lia. Qed.

Lemma lt_number_between c c' best :
  lt_number c best = false → lt_number c' best = true → c' < c.
Proof.
  destruct best; simpl; [done|]. rewrite Z.ltb_lt, Z.ltb_ge. lia.
Qed.

(** A completed scan either keeps the best it started from, which nothing in
    [perms] beats, or ends on the first cheapest permutation of [perms]. *)
Lemma bf_loop_scan time timeout start_time perms st ro x :
  bf_loop time timeout start_time distances start perms st
    = Return (ro, Some x) →
  (ro = best_route st ∧ x = best_distance st ∧
   ∀ q, q ∈ perms →
     ∃ c', closed_cost distances start q = Return c' ∧ lt_number c' (best_distance st) = false)
  ∨ (∃ perm c, ro = Some (start :: perm) ∧ x = Fin c ∧
       lt_number c (best_distance st) = true ∧ first_min distances start perms perm c).
Proof.
  revert st. induction perms as [|p perms IH]; intros st Hrun.
  - injection Hrun as <- <-. left. split_and!; [done..|].
    by intros q ?%elem_of_nil.
  - rewrite bf_loop_cons in Hrun.
    destruct (timeout <? _); [done|].
    apply bind_Return in Hrun as (c & Hc & Hrun).
    apply IH in Hrun. unfold bf_update in Hrun.
    rewrite drop_last_closed in Hrun.
    destruct (lt_number c (best_distance st)) eqn:Hlt; simpl in Hrun.
    + right.
      destruct Hrun as [(-> & -> & Hrest)|(p' & c' & -> & -> & Hlt' & Hmin)].
      * exists p, c. split_and!; [done..|]. exists [], perms.
        split_and!; [done..| |].
        { by intros q ?%elem_of_nil. }
        intros q (cq & ? & Hq)%Hrest. exists cq. split; [done|].
        simpl in Hq. apply Z.ltb_ge in Hq. lia.
      * simpl in Hlt'. apply Z.ltb_lt in Hlt'.
        exists p', c'. split_and!; [done..| |].
        { by eapply lt_number_trans. }
        destruct Hmin as (before & after & -> & ? & Hb & Ha).
        exists (p :: before), after. split_and!; [done..| |done].
        intros q [->|?]%elem_of_cons; [eauto|by apply Hb].
    + destruct Hrun as [(-> & -> & Hrest)|(p' & c' & -> & -> & Hlt' & Hmin)].
      * left. split_and!; [done..|].
        intros q [->|?]%elem_of_cons; [eauto|by apply Hrest].
      * right. exists p', c'. split_and!; [done..|].
        destruct Hmin as (before & after & -> & ? & Hb & Ha).
        exists (p :: before), after. split_and!; [done..| |done].
        intros q [->|?]%elem_of_cons; [|by apply Hb].
        exists c. split; [done|]. by eapply lt_number_between.
Qed.

(** The loop completes when no check finds the budget exceeded and every
    route can be costed. *)
Lemma bf_loop_completes time timeout start_time perms st :
  (∀ k, (k < length perms)%nat →
        time (S (routes_checked st + k)) - start_time ≤ timeout) →
  (∀ q, q ∈ perms → ∃ c, closed_cost distances start q = Return c) →
  ∃ ro x, bf_loop time timeout start_time distances start perms st
          = Return (ro, Some x).
Proof.
  revert st. induction perms as [|p perms IH]; intros st Hclock Hcost.
  - simpl. eauto.
  - rewrite bf_loop_cons.
    specialize (Hclock 0%nat) as H0. rewrite Nat.add_0_r in H0.
    destruct (Z.ltb_spec timeout (time (S (routes_checked st)) - start_time))
      as [?|_]; [simpl in H0; lia|].
    destruct (Hcost p) as [c ->]; [by left|]. rewrite bind_Return_l.
    apply IH.
    + intros k Hk. specialize (Hclock (S k)).
      replace (routes_checked _ + k)%nat with (routes_checked st + S k)%nat
        by (unfold bf_update; destruct (lt_number _ _); simpl; lia).
      apply Hclock. simpl. lia.
    + intros q ?. apply Hcost. by right.
Qed.

(** A check that finds the budget exceeded ends the loop with
    [(None, None)], whatever the state reached. *)
Lemma bf_loop_timeout time timeout start_time before perm after st :
  (∀ q, q ∈ before → ∃ c, closed_cost distances start q = Return c) →
  timeout < time (S (routes_checked st + length before)) - start_time →
  bf_loop time timeout start_time distances start
          (before ++ perm :: after) st
  = Return (None, None).
Proof.
  revert st. induction before as [|q before IH]; intros st Hcost Hfire.
  - simpl app. rewrite bf_loop_cons. rewrite Nat.add_0_r in Hfire.
    by apply Z.ltb_lt in Hfire as ->.
  - change ((q :: before) ++ perm :: after)
      with (q :: (before ++ perm :: after)).
    rewrite bf_loop_cons. destruct (timeout <? _); [done|].
    destruct (Hcost q) as [c ->]; [by left|]. rewrite bind_Return_l.
    apply IH.
    + intros q' ?. apply Hcost. by right.
    + replace (routes_checked _ + length before)%nat
        with (routes_checked st + length (q :: before))%nat; [done|].
      unfold bf_update. destruct (lt_number _ _); simpl; lia.
Qed.

(** The outcome of a completed scan does not depend on the clock. *)
Lemma bf_loop_deterministic time1 time2 timeout1 timeout2 s1 s2 perms :
  ∀ st1 st2 ro1 ro2 x1 x2,
    best_distance st1 = best_distance st2 →
    best_route st1 = best_route st2 →
    bf_loop time1 timeout1 s1 distances start perms st1
      = Return (ro1, Some x1) →
    bf_loop time2 timeout2 s2 distances start perms st2
      = Return (ro2, Some x2) →
    ro1 = ro2 ∧ x1 = x2.
Proof.
  induction perms as [|p perms IH]; intros st1 st2 ro1 ro2 x1 x2 Hd Hr H1 H2.
  - injection H1 as <- <-. injection H2 as <- <-. done.
  - rewrite bf_loop_cons in H1, H2.
    destruct (timeout1 <? _); [done|]. destruct (timeout2 <? _); [done|].
    apply bind_Return in H1 as (c & Hc & H1).
    apply bind_Return in H2 as (c2 & Hc2 & H2).
    assert (c2 = c) as -> by congruence.
    eapply IH; [| |exact H1|exact H2];
      unfold bf_update; rewrite Hd, ?Hr; by destruct (lt_number _ _).
Qed.
End brute_force.

(** ** The approximate solver's loop *)

(** The unvisited set strictly shrinks in every iteration. *)
Lemma set_remove_shrinks x s s' :
  set_remove x s = Return s' → (length s' < length s)%nat.
Proof.
  unfold set_remove. case_decide as Hin; [|done].
  intros [= <-]. apply (length_filter_lt _ _ x); [done|]. by intros ?.
Qed.

Lemma nn_body_shrinks distances st st' :
  nn_body distances st = Return st' →
  (length (unvisited st') < length (unvisited st))%nat.
Proof.
  unfold nn_body. intros H.
  destruct (py_min _ _) as [nearest|]; [|done]. simpl in H.
  destruct (getitem2 _ _ _) as [d|]; [|done]. simpl in H.
  destruct (set_remove _ _) as [u|] eqn:Hrm; [|done]. simpl in H.
  injection H as <-. simpl. by eapply set_remove_shrinks.
Qed.

(** The [while] loop, unfolded once. *)
Lemma nn_while_eq distances st :
  nn_while distances st
  = match unvisited st with
    | [] => Return st
    | _ :: _ => nn_body distances st ≫= nn_while distances
    end.
Proof.
  funelim (nn_while distances st).
  - by rewrite Hempty.
  - by rewrite Hsome, Hbody.
  - by rewrite Hsome, Hraise.
Qed.

(** [min] returns a member of the iterable whose key is least. *)
Lemma min_loop_spec key minitem minval items :
  (∀ x, x ∈ items → ∃ v, key x = Return v) →
  ∃ r v, min_loop key minitem minval items = Return r ∧
         (r = minitem ∧ v = minval ∨ r ∈ items ∧ key r = Return v) ∧
         v ≤ minval ∧
         (∀ x v', x ∈ items → key x = Return v' → v ≤ v').
Proof.
  revert minitem minval.
  induction items as [|x items IH]; intros minitem minval Hkey; simpl.
  - exists minitem, minval. split_and!; [done|by left|lia|].
    by intros ?? ?%elem_of_nil.
  - destruct (Hkey x) as [vx Hvx]; [by left|]. rewrite Hvx, bind_Return_l.
    assert (∀ y, y ∈ items → ∃ v, key y = Return v) as Hkey'
      by (intros y ?; apply Hkey; by right).
    destruct (Z.ltb_spec vx minval) as [Hlt|Hge].
    + destruct (IH x vx Hkey') as (r & v & -> & Hr & Hle & Hleast).
      exists r, v. split_and!; [done| |lia|].
      * right. destruct Hr as [[-> ->]|[? ?]]; [by split; [left|]|].
        by split; [right|].
      * intros y v' [->|?]%elem_of_cons Hy; [|by eapply Hleast].
        rewrite Hvx in Hy. injection Hy as <-. done.
    + destruct (IH minitem minval Hkey') as (r & v & -> & Hr & Hle & Hleast).
      exists r, v. split_and!; [done| |lia|].
      * destruct Hr as [[-> ->]|[? ?]]; [by left|]. right. by split; [right|].
      * intros y v' [->|?]%elem_of_cons Hy; [|by eapply Hleast].
        rewrite Hvx in Hy. injection Hy as <-. lia.
Qed.

Lemma py_min_spec items key :
  items ≠ [] →
  (∀ x, x ∈ items → ∃ v, key x = Return v) →
  ∃ r v, py_min items key = Return r ∧ r ∈ items ∧ key r = Return v ∧
         (∀ x v', x ∈ items → key x = Return v' → v ≤ v').
Proof.
  destruct items as [|x items]; [done|]. intros _ Hkey. simpl.
  destruct (Hkey x) as [vx Hvx]; [by left|]. rewrite Hvx, bind_Return_l.
  destruct (min_loop_spec key x vx items) as (r & v & -> & Hr & Hle & Hleast).
  { intros y ?. apply Hkey. by right. }
  exists r, v. split; [done|].
  destruct Hr as [[-> ->]|[? ?]].
  - split_and!; [by left|done|].
    intros y v' [->|?]%elem_of_cons Hy; [|by eapply Hleast].
    rewrite Hvx in Hy. injection Hy as <-. done.
  - split_and!; [by right|done|].
    intros y v' [->|?]%elem_of_cons Hy; [|by eapply Hleast].
    rewrite Hvx in Hy. injection Hy as <-. done.
Qed.

Lemma filter_remove_perm (x : nat) (s : list nat) :
  NoDup s → x ∈ s → x :: filter (λ y, y ≠ x) s ≡ₚ s.
Proof.
  induction 1 as [|a s Ha Hnd IH]; [by intros ?%elem_of_nil|].
  intros Hin. destruct (decide (a = x)) as [->|Hne].
  - rewrite filter_cons_False by naive_solver.
    rewrite filter_all; [done|]. apply Forall_forall. by intros y ? ->.
  - rewrite filter_cons_True by done.
    apply elem_of_cons in Hin as [->|Hin]; [done|].
    rewrite Permutation_swap. by rewrite IH.
Qed.

Lemma set_remove_member x s :
  x ∈ s → set_remove x s = Return (filter (λ y, y ≠ x) s).
Proof. intros ?. unfold set_remove. by rewrite decide_True. Qed.

Section nearest_neighbor.
Context (n : nat) (distances : matrix) (Hsq : square n distances).
Context (start : nat).

Lemma nn_inv_bound st i :
  nn_inv n distances start st → i ∈ route st ++ unvisited st → (i < n)%nat.
Proof. intros [Hperm _] Hi. rewrite Hperm in Hi. apply elem_of_seq in Hi. lia. Qed.

Lemma nn_inv_current st : nn_inv n distances start st → (current st < n)%nat.
Proof.
  intros Hinv. apply (nn_inv_bound st); [done|].
  destruct Hinv as (_ & _ & Hlast & _).
  apply elem_of_app. left. apply last_Some in Hlast as [r ->].
  apply elem_of_app. right. by left.
Qed.

Lemma nn_body_inv st :
  nn_inv n distances start st → unvisited st ≠ [] →
  ∃ st', nn_body distances st = Return st' ∧ nn_inv n distances start st'.
Proof using Hsq.
  intros Hinv Hne. pose proof (nn_inv_current st Hinv) as Hcur.
  assert (∀ x, x ∈ unvisited st → (x < n)%nat) as Hun.
  { intros x ?. apply (nn_inv_bound st); [done|]. apply elem_of_app. by right. }
  destruct (py_min_spec (unvisited st)
              (λ x, getitem2 distances (current st) x))
    as (nearest & v & Hmin & Hin & _); [done| |].
  { intros x ?. rewrite (getitem2_entry n) by auto. eauto. }
  unfold nn_body. rewrite Hmin, bind_Return_l.
  rewrite (getitem2_entry n), bind_Return_l by auto.
  rewrite set_remove_member, bind_Return_l by done.
  eexists. split; [done|].
  destruct Hinv as (Hperm & Hhead & Hlast & Htotal).
  split_and!; simpl.
  - rewrite <-Hperm, <-(assoc_L (++)). apply Permutation_app_head.
    apply filter_remove_perm; [|done].
    assert (NoDup (route st ++ unvisited st)) as Hnd
      by (rewrite Hperm; apply NoDup_seq).
    by apply NoDup_app in Hnd as (_ & _ & ?).
  - destruct (route st); [done|]. done.
  - apply last_snoc.
  - rewrite path_cost_snoc, Hlast, Htotal. done.
Qed.

(** The loop ends, with every location visited. *)
Lemma nn_while_inv st :
  nn_inv n distances start st →
  ∃ st', nn_while distances st = Return st' ∧ nn_inv n distances start st' ∧ unvisited st' = [].
Proof using Hsq.
  remember (length (unvisited st)) as k eqn:Hk. revert st Hk.
  induction k as [k IH] using lt_wf_ind. intros st -> Hinv.
  rewrite nn_while_eq. destruct (unvisited st) as [|x u] eqn:Hu; [eauto|].
  destruct (nn_body_inv st) as (st1 & Hbody & Hinv1); [done|by rewrite Hu|].
  rewrite Hbody, bind_Return_l.
  eapply IH; [|done..]. rewrite <-Hu. by eapply nn_body_shrinks.
Qed.

Lemma tsp_nearest_neighbor_valid :
  (start < n)%nat →
  ∃ route distance,
    tsp_nearest_neighbor distances start = Return (route, distance) ∧
    valid_route n distances start route distance.
Proof using Hsq.
  intros Hstart. unfold tsp_nearest_neighbor.
  rewrite (proj1 Hsq).
  assert (start ∈ seq 0 n) as Hin by (apply elem_of_seq; lia).
  rewrite set_remove_member, bind_Return_l by done.
  destruct (nn_while_inv
              (NnState (filter (λ y, y ≠ start) (seq 0 n)) start [start] 0))
    as (st & -> & Hinv & Hdone).
  { split_and!; try done. simpl.
    apply filter_remove_perm; [apply NoDup_seq|done]. }
  rewrite bind_Return_l. pose proof (nn_inv_current st Hinv) as Hcur.
  destruct st as [u cur r total]. simpl in *. subst u.
  rewrite (getitem2_entry n), bind_Return_l by done.
  eexists _, _. split; [done|].
  destruct Hinv as (Hperm & Hhead & Hlast & Htotal). simpl in *.
  rewrite app_nil_r in Hperm. split_and!; [done| |done|].
  - by rewrite Hperm, length_seq.
  - unfold tour_cost. destruct r as [|first r]; [done|].
    rewrite Hlast. injection Hhead as ->. by rewrite Htotal.
Qed.
End nearest_neighbor.

(** ** The exact solver on any matrix *)

Lemma tsp_brute_force_eq time distances timeout :
  tsp_brute_force time distances timeout
  = bf_loop time timeout (time 0%nat) distances 0
            (permutations (seq 1 (length distances - 1))) (BfState Inf None 0).
Proof. unfold tsp_brute_force. by rewrite other_locations_seq. Qed.

(** A completed run ends on the first cheapest permutation. *)
Lemma tsp_brute_force_first_min time distances timeout ro x :
  tsp_brute_force time distances timeout = Return (ro, Some x) →
  ∃ perm c, ro = Some (0%nat :: perm) ∧ x = Fin c ∧
    first_min distances 0 (permutations (seq 1 (length distances - 1))) perm c.
Proof.
  rewrite tsp_brute_force_eq. intros Hrun.
  apply bf_loop_scan in Hrun as [(_ & _ & Hall)|(perm & c & ? & ? & _ & ?)];
    [|eauto].
  destruct (permutations (seq 1 (length distances - 1))) as [|q perms] eqn:Hp.
  { by apply permutations_nonempty in Hp. }
  destruct (Hall q) as (c & _ & Hlt); [by left|]. done.
Qed.

(** ** The exact solver on a square matrix *)

Lemma seq_start n : (1 ≤ n)%nat → seq 0 n = 0%nat :: seq 1 (n - 1).
Proof. destruct n; [lia|]. intros _. simpl. by rewrite Nat.sub_0_r. Qed.

Section brute_force_square.
Context (n : nat) (distances : matrix).
Context (Hsq : square n distances) (Hn : (1 ≤ n)%nat).

Lemma closed_cost_square perm :
  is_tour_perm n perm →
  closed_cost distances 0 perm = Return (tour_cost distances (0%nat :: perm)).
Proof using Hsq Hn.
  intros Hperm. unfold closed_cost.
  rewrite (route_distance_path n), path_cost_closed; [done..|].
  apply Forall_forall. intros i Hi.
  change ([0%nat] ++ perm ++ [0%nat]) with (0%nat :: perm ++ [0%nat]) in Hi.
  rewrite elem_of_cons, elem_of_app, list_elem_of_singleton in Hi.
  destruct Hi as [->|[Hi| ->]]; [lia| |lia].
  unfold is_tour_perm in Hperm. rewrite Hperm in Hi.
  apply elem_of_seq in Hi. lia.
Qed.

Lemma first_min_square perm c :
  first_min distances 0 (permutations (seq 1 (n - 1))) perm c →
  ∃ before after,
    permutations (seq 1 (n - 1)) = before ++ perm :: after ∧
    is_tour_perm n perm ∧
    c = tour_cost distances (0%nat :: perm) ∧
    (∀ q, q ∈ before →
       tour_cost distances (0%nat :: perm) < tour_cost distances (0%nat :: q)) ∧
    (∀ q, q ∈ after →
       tour_cost distances (0%nat :: perm) ≤ tour_cost distances (0%nat :: q)).
Proof using Hsq Hn.
  intros (before & after & Heq & Hc & Hb & Ha).
  assert (∀ q, q ∈ before ++ perm :: after → is_tour_perm n q) as Htour.
  { intros q Hq. rewrite <-Heq in Hq. by apply permutations_elem in Hq. }
  assert (is_tour_perm n perm) as Hperm.
  { apply Htour, elem_of_app. right. by left. }
  rewrite closed_cost_square in Hc by done. injection Hc as <-.
  exists before, after. split_and!; [done..| |].
  - intros q Hq. destruct (Hb q Hq) as (c' & Hc' & ?).
    rewrite closed_cost_square in Hc'; [by injection Hc' as <-|].
    apply Htour, elem_of_app. by left.
  - intros q Hq. destruct (Ha q Hq) as (c' & Hc' & ?).
    rewrite closed_cost_square in Hc'; [by injection Hc' as <-|].
    apply Htour, elem_of_app. right. by right.
Qed.

(** A run that meets no expired check returns a route and a distance. *)
Lemma tsp_brute_force_completes time timeout :
  (∀ k, time (S k) - time 0%nat ≤ timeout) →
  ∃ route dist,
    tsp_brute_force time distances timeout = Return (Some route, Some (Fin dist)).
Proof using Hsq Hn.
  intros Hclock.
  destruct (bf_loop_completes distances 0 time timeout (time 0%nat)
              (permutations (seq 1 (n - 1))) (BfState Inf None 0))
    as (ro & x & Hrun).
  { intros k _. apply Hclock. }
  { intros q Hq%permutations_elem. rewrite closed_cost_square by done. eauto. }
  assert (tsp_brute_force time distances timeout = Return (ro, Some x)) as Hbf.
  { rewrite tsp_brute_force_eq. by rewrite (proj1 Hsq). }
  destruct (tsp_brute_force_first_min _ _ _ _ _ Hbf) as (perm & c & -> & -> & _).
  eauto.
Qed.

Lemma tsp_brute_force_square time timeout ro x :
  tsp_brute_force time distances timeout = Return (ro, Some x) →
  ∃ before perm after,
    permutations (seq 1 (n - 1)) = before ++ perm :: after ∧
    is_tour_perm n perm ∧
    ro = Some (0%nat :: perm) ∧
    x = Fin (tour_cost distances (0%nat :: perm)) ∧
    (∀ q, q ∈ before →
       tour_cost distances (0%nat :: perm) < tour_cost distances (0%nat :: q)) ∧
    (∀ q, q ∈ after →
       tour_cost distances (0%nat :: perm) ≤ tour_cost distances (0%nat :: q)).
Proof using Hsq Hn.
  intros (perm & c & -> & -> & Hmin)%tsp_brute_force_first_min.
  rewrite (proj1 Hsq) in Hmin.
  apply first_min_square in Hmin as (before & after & ? & ? & -> & ? & ?).
  exists before, perm, after. by split_and!.
Qed.

Lemma tsp_brute_force_min time timeout ro x :
  tsp_brute_force time distances timeout = Return (ro, Some x) →
  ∃ m, x = Fin m ∧ is_min_tour_cost n distances m.
Proof using Hsq Hn.
  intros (before & perm & after & Heq & Hperm & _ & -> & Hb & Ha)
           %tsp_brute_force_square.
  eexists. split; [done|]. split; [eauto|].
  intros q Hq%permutations_elem. rewrite Heq in Hq.
  apply elem_of_app in Hq as [Hq|[->|Hq]%elem_of_cons].
  - specialize (Hb q Hq). lia.
  - lia.
  - by apply Ha.
Qed.

Lemma tsp_brute_force_valid time timeout ro x :
  tsp_brute_force time distances timeout = Return (ro, Some x) →
  ∃ route dist, ro = Some route ∧ x = Fin dist ∧
                valid_route n distances 0 route dist.
Proof using Hsq Hn.
  intros (before & perm & after & _ & Hperm & -> & -> & _)
           %tsp_brute_force_square.
  eexists _, _. split_and!; [done..|]. unfold is_tour_perm in Hperm.
  split_and!; [|simpl|done..].
  - by rewrite seq_start, Hperm.
  - rewrite Hperm, length_seq. lia.
Qed.
End brute_force_square.

(** ** Small facts used by the claims *)

(** With two locations the only valid route from 0 is [[0; 1]]. *)
Lemma valid_route_two distances route dist :
  valid_route 2 distances 0 route dist →
  route = [0; 1]%nat ∧ dist = entry distances 0 1 + entry distances 1 0.
Proof.
  intros (Hperm & Hlen & Hhead & ->).
  destruct route as [|a [|b [|]]]; simplify_eq/=.
  apply (inj (cons 0%nat)), Permutation_singleton_r in Hperm as [= ->].
  split; [done|]. unfold tour_cost. simpl. lia.
Qed.

Lemma quality_ge_100 (d_nn d_bf : Z) :
  0 < d_bf → d_bf ≤ d_nn → (100 <= quality d_nn d_bf)%Q.
Proof.
  intros Hpos Hle. unfold quality.
  apply (Qle_trans _ (1 * 100)); [done|].
  apply Qmult_le_compat_r; [|done].
  apply Qle_shift_div_l.
  - change 0%Q with (inject_Z 0). by rewrite <-Zlt_Qlt.
  - rewrite Qmult_1_l. by rewrite <-Zle_Qle.
Qed.

(** * The claims *)

(** C1: for a square N×N matrix with N ≥ 1, whenever [tsp_brute_force]
    returns a result other than the timeout signal, the distance it returns is
    the minimum, over all permutations of the locations 1..N-1, of the cost of
    the closed tour that starts and ends at 0. *)
Theorem brute_force_optimal n distances time timeout ro x :
  square n distances → (1 ≤ n)%nat →
  tsp_brute_force time distances timeout = Return (ro, Some x) →
  ∃ m, x = Fin m ∧ is_min_tour_cost n distances m.
Proof. intros Hsq Hn. by apply tsp_brute_force_min. Qed.

Lemma brute_force_optimal_witness :
  ∃ m, Fin 4 = Fin m ∧ is_min_tour_cost 4 m4 m.
Proof.
  apply (brute_force_optimal 4 m4 frozen 60 (Some [0; 1; 2; 3]%nat) (Fin 4)).
  - split; [reflexivity|]. repeat constructor.
  - lia.
  - reflexivity.
Defined.

(** C2: for a square N×N matrix with N ≥ 1, a route and distance returned by
    [tsp_brute_force] (no timeout) or by [tsp_nearest_neighbor] (start below
    N) form a valid route: a permutation of 0..N-1 of length N that begins
    with the start index, whose reported distance is the sum of the
    consecutive edges plus the closing edge. *)
Theorem route_validity n distances :
  square n distances → (1 ≤ n)%nat →
  (∀ time timeout ro x,
     tsp_brute_force time distances timeout = Return (ro, Some x) →
     ∃ route dist, ro = Some route ∧ x = Fin dist ∧
                   valid_route n distances 0 route dist) ∧
  (∀ start route dist,
     (start < n)%nat →
     tsp_nearest_neighbor distances start = Return (route, dist) →
     valid_route n distances start route dist).
Proof.
  intros Hsq Hn. split.
  - intros time timeout ro x. by apply tsp_brute_force_valid.
  - intros start route dist Hstart Hrun.
    destruct (tsp_nearest_neighbor_valid n distances Hsq start Hstart)
      as (route' & dist' & Hrun' & Hvalid).
    rewrite Hrun in Hrun'. by injection Hrun' as <- <-.
Qed.

Lemma route_validity_witness :
  valid_route 4 m4 0 [0; 1; 2; 3]%nat 4 ∧ valid_route 4 m4 1 [1; 0; 3; 2]%nat 4.
Proof.
  assert (square 4 m4) as Hsq by (split; [reflexivity|repeat constructor]).
  assert (1 ≤ 4)%nat as Hn by lia.
  destruct (route_validity 4 m4 Hsq Hn) as [Hbf Hnn]. split.
  - destruct (Hbf frozen 60 (Some [0; 1; 2; 3]%nat) (Fin 4) eq_refl)
      as (route & dist & [= <-] & [= <-] & Hvalid).
    exact Hvalid.
  - apply Hnn; [lia|reflexivity].
Defined.

(** C3: for a square N×N matrix with N ≥ 1, when [tsp_brute_force] completes
    with distance d_bf and [tsp_nearest_neighbor] from start 0 returns d_nn,
    then d_nn ≥ d_bf; where the ratio is defined (d_bf > 0) the quality
    percentage [(d_nn / d_bf) * 100] is at least 100. *)
Theorem nearest_neighbor_not_below_optimum
    n distances time timeout ro x route d_nn :
  square n distances → (1 ≤ n)%nat →
  tsp_brute_force time distances timeout = Return (ro, Some x) →
  tsp_nearest_neighbor distances 0 = Return (route, d_nn) →
  ∃ d_bf, x = Fin d_bf ∧ d_bf ≤ d_nn ∧
          (0 < d_bf → (100 <= quality d_nn d_bf)%Q).
Proof.
  intros Hsq Hn Hbf Hnn.
  destruct (tsp_brute_force_min n distances Hsq Hn _ _ _ _ Hbf)
    as (d_bf & -> & _ & Hmin).
  destruct (tsp_nearest_neighbor_valid n distances Hsq 0%nat)
    as (route' & dist' & Hrun & Hperm & _ & Hhead & Hdist); [lia|].
  rewrite Hnn in Hrun. injection Hrun as <- <-.
  destruct route as [|first perm]; [done|]. injection Hhead as ->.
  rewrite seq_start in Hperm by done. apply (inj (cons 0%nat)) in Hperm.
  assert (d_bf ≤ d_nn) as Hle by (rewrite Hdist; by apply Hmin).
  exists d_bf. split_and!; [done..|]. intros ?. by apply quality_ge_100.
Qed.

Lemma nearest_neighbor_not_below_optimum_witness :
  ∃ d_bf, Fin 19 = Fin d_bf ∧ d_bf ≤ 21 ∧
          (0 < d_bf → (100 <= quality 21 d_bf)%Q).
Proof.
  apply (nearest_neighbor_not_below_optimum 5 m5 frozen 60
           (Some [0; 2; 1; 4; 3]%nat) (Fin 19) [0; 3; 2; 1; 4]%nat 21).
  - split; [reflexivity|]. repeat constructor.
  - lia.
  - reflexivity.
  - reflexivity.
Defined.

(** C4: whenever [tsp_brute_force] takes the timeout branch it returns
    exactly [(None, None)]: if the check at the top of some iteration finds
    the budget exceeded, then, however many permutations were examined before
    and whatever best route they left recorded, the result is the pair of
    [None]s. *)
Theorem timeout_returns_no_result time distances timeout before perm after :
  permutations (seq 1 (length distances - 1)) = before ++ perm :: after →
  Forall (λ q, ∃ c, closed_cost distances 0 q = Return c) before →
  timeout < time (S (length before)) - time 0%nat →
  tsp_brute_force time distances timeout = Return (None, None).
Proof.
  intros Hperms Hcost Hfire. rewrite tsp_brute_force_eq, Hperms.
  apply bf_loop_timeout; [|done].
  intros q Hq. by apply (proj1 (Forall_forall _ _) Hcost).
Qed.

Lemma timeout_returns_no_result_witness :
  tsp_brute_force ticking m4 3 = Return (None, None).
Proof.
  apply (timeout_returns_no_result ticking m4 3
           [[1; 2; 3]; [1; 3; 2]; [2; 1; 3]]%nat [2; 3; 1]%nat
           [[3; 1; 2]; [3; 2; 1]]%nat).
  - reflexivity.
  - repeat constructor; eexists; reflexivity.
  - vm_compute. reflexivity.
Defined.

(** The timeout handling of the three reporting modes that call the exact
    solver, for any run that timed out. *)
Lemma test_small_cases_timeout time size distances :
  tsp_brute_force time distances 60 = Return (None, None) →
  test_small_cases time size distances = Raise TypeError.
Proof. intros Hrun. unfold test_small_cases. by rewrite Hrun. Qed.

Lemma time_brute_force_timeout time size distances elapsed :
  size ≠ 0%nat →
  tsp_brute_force time distances 60 = Return (None, None) →
  time_brute_force time size distances elapsed
  = Return [Int (Z.of_nat size); Int (Z.of_nat (fact (size - 1)));
            Fixed 3 elapsed; Str "N/A"; Str "TIMEOUT"].
Proof.
  intros Hsize Hrun. unfold time_brute_force.
  rewrite decide_False, bind_Return_l by done. by rewrite Hrun.
Qed.

Lemma compare_all_approaches_timeout
    time size distances time_bf time_nn route dist_nn :
  tsp_brute_force time distances 60 = Return (None, None) →
  tsp_nearest_neighbor distances 0 = Return (route, dist_nn) →
  fits_float dist_nn = true →
  compare_all_approaches time size distances time_bf time_nn
  = Return [Int (Z.of_nat size); Str "TIMEOUT"; Fixed 2 (inject_Z dist_nn);
            Str "N/A"; Str "TIMEOUT"; Fixed 6 time_nn].
Proof.
  intros Hbf Hnn Hfits. unfold compare_all_approaches. rewrite Hbf, Hnn.
  simpl. by rewrite Hfits.
Qed.

(** C5: the harness is to treat a timed-out run of the exact solver
    distinctly in every reporting mode.  On a five-location matrix whose run
    times out, [time_brute_force] and [compare_all_approaches] print their
    N/A and TIMEOUT fields, but [test_small_cases] formats the [None] distance
    with [.2f] and stops with [TypeError]. *)
Theorem test_small_cases_formats_timeout :
  tsp_brute_force jumping m5 60 = Return (None, None) ∧
  test_small_cases jumping 5 m5 = Raise TypeError ∧
  time_brute_force jumping 5 m5 0
  = Return [Int 5; Int 24; Fixed 3 0; Str "N/A"; Str "TIMEOUT"] ∧
  compare_all_approaches jumping 5 m5 0 0
  = Return [Int 5; Str "TIMEOUT"; Fixed 2 (inject_Z 21); Str "N/A";
            Str "TIMEOUT"; Fixed 6 0].
Proof.
  assert (tsp_brute_force jumping m5 60 = Return (None, None)) as Hrun
    by reflexivity.
  split_and!; [done| | |].
  - by apply test_small_cases_timeout.
  - by apply (time_brute_force_timeout jumping 5 m5 0).
  - by apply (compare_all_approaches_timeout
                jumping 5 m5 0 0 [0; 3; 2; 1; 4]%nat 21).
Qed.

(** C6: on a square matrix, when several permutations reach the minimum cost,
    [tsp_brute_force] returns the route of the first of them in the order of
    [permutations] over the locations 1..N-1: every permutation enumerated
    before the returned one costs strictly more, every later one at least as
    much. *)
Theorem first_minimum_wins n distances time timeout ro x :
  square n distances → (1 ≤ n)%nat →
  tsp_brute_force time distances timeout = Return (ro, Some x) →
  ∃ before perm after,
    permutations (seq 1 (n - 1)) = before ++ perm :: after ∧
    ro = Some (0%nat :: perm) ∧
    x = Fin (tour_cost distances (0%nat :: perm)) ∧
    (∀ q, q ∈ before →
       tour_cost distances (0%nat :: perm) < tour_cost distances (0%nat :: q)) ∧
    (∀ q, q ∈ after →
       tour_cost distances (0%nat :: perm) ≤ tour_cost distances (0%nat :: q)).
Proof.
  intros Hsq Hn Hrun.
  destruct (tsp_brute_force_square n distances Hsq Hn _ _ _ _ Hrun)
    as (before & perm & after & ? & _ & ? & ? & ? & ?).
  exists before, perm, after. by split_and!.
Qed.

(** On [m4] the tours 0-1-2-3 and 0-3-2-1 both cost 4; the first enumerated
    is returned. *)
Lemma first_minimum_wins_witness :
  ∃ before perm after,
    permutations (seq 1 (4 - 1)) = before ++ perm :: after ∧
    Some [0; 1; 2; 3]%nat = Some (0%nat :: perm) ∧
    Fin 4 = Fin (tour_cost m4 (0%nat :: perm)) ∧
    (∀ q, q ∈ before →
       tour_cost m4 (0%nat :: perm) < tour_cost m4 (0%nat :: q)) ∧
    (∀ q, q ∈ after →
       tour_cost m4 (0%nat :: perm) ≤ tour_cost m4 (0%nat :: q)).
Proof.
  apply (first_minimum_wins 4 m4 frozen 60 (Some [0; 1; 2; 3]%nat) (Fin 4)).
  - split; [reflexivity|]. repeat constructor.
  - lia.
  - reflexivity.
Defined.

Example tie_on_m4 :
  tour_cost m4 [0; 1; 2; 3]%nat = 4 ∧ tour_cost m4 [0; 3; 2; 1]%nat = 4 ∧
  tsp_brute_force frozen m4 60 = Return (Some [0; 1; 2; 3]%nat, Some (Fin 4)).
Proof. done. Qed.

(** C7: for a 2×2 distance matrix (symmetric, as the data model has it) both
    solvers return the route [[0; 1]] with total distance
    [2 * distances[0][1]]: [tsp_brute_force] whenever it does not time out,
    and [tsp_nearest_neighbor] from start 0. *)
Theorem two_locations distances time timeout :
  square 2 distances →
  entry distances 0 1 = entry distances 1 0 →
  (∀ ro x,
     tsp_brute_force time distances timeout = Return (ro, Some x) →
     ro = Some [0; 1]%nat ∧ x = Fin (2 * entry distances 0 1)) ∧
  tsp_nearest_neighbor distances 0
  = Return ([0; 1]%nat, 2 * entry distances 0 1).
Proof.
  intros Hsq Hsym. split.
  - intros ro x Hrun.
    assert (1 ≤ 2)%nat as Hn by lia.
    destruct (tsp_brute_force_valid 2 distances Hsq Hn _ _ _ _ Hrun)
      as (route & dist & -> & -> & [-> ->]%valid_route_two).
    split; [done|]. f_equal. lia.
  - destruct (tsp_nearest_neighbor_valid 2 distances Hsq 0%nat)
      as (route & dist & -> & [-> ->]%valid_route_two); [lia|].
    do 2 f_equal. lia.
Qed.

Lemma two_locations_witness :
  (Some [0; 1]%nat = Some [0; 1]%nat ∧ Fin 14 = Fin (2 * entry m2 0 1)) ∧
  tsp_nearest_neighbor m2 0 = Return ([0; 1]%nat, 2 * entry m2 0 1).
Proof.
  assert (square 2 m2) as Hsq by (split; [reflexivity|repeat constructor]).
  assert (entry m2 0 1 = entry m2 1 0) as Hsym by reflexivity.
  destruct (two_locations m2 frozen 60 Hsq Hsym) as [Hbf Hnn]. split.
  - apply (Hbf (Some [0; 1]%nat) (Fin 14)). reflexivity.
  - exact Hnn.
Defined.

(** Without symmetry the two solvers return [distances[0][1] +
    distances[1][0]]. *)
Example two_locations_asymmetric :
  tsp_brute_force frozen m2_asym 60 = Return (Some [0; 1]%nat, Some (Fin 3)) ∧
  tsp_nearest_neighbor m2_asym 0 = Return ([0; 1]%nat, 3).
Proof. done. Qed.

(** C8: for a square N×N matrix with N ≥ 1 and a start index below N,
    [tsp_nearest_neighbor] terminates with a complete (route, distance)
    result: every iteration of its loop strictly shrinks the unvisited set,
    and the call returns, never raising, a route that visits each of the N
    locations exactly once from the start, with the distance of that closed
    route. *)
Theorem nearest_neighbor_terminates n distances start :
  square n distances → (1 ≤ n)%nat → (start < n)%nat →
  (∀ st st',
     nn_body distances st = Return st' →
     (length (unvisited st') < length (unvisited st))%nat) ∧
  ∃ route dist,
    tsp_nearest_neighbor distances start = Return (route, dist) ∧
    valid_route n distances start route dist.
Proof.
  intros Hsq _ Hstart. split; [apply nn_body_shrinks|].
  by apply tsp_nearest_neighbor_valid.
Qed.

Lemma nearest_neighbor_terminates_witness :
  (∀ st st',
     nn_body m4 st = Return st' →
     (length (unvisited st') < length (unvisited st))%nat) ∧
  ∃ route dist,
    tsp_nearest_neighbor m4 3 = Return (route, dist) ∧
    valid_route 4 m4 3 route dist.
Proof.
  apply (nearest_neighbor_terminates 4 m4 3).
  - split; [reflexivity|]. repeat constructor.
  - lia.
  - lia.
Defined.

(** C9: each solver is deterministic: two invocations of
    [tsp_nearest_neighbor] on the same matrix and start give the same result,
    and two invocations of [tsp_brute_force] on the same matrix that both
    complete without timeout, whatever the clock showed during each, return
    the same route and the same distance. *)
Theorem solvers_deterministic distances :
  (∀ start r1 r2,
     tsp_nearest_neighbor distances start = r1 →
     tsp_nearest_neighbor distances start = r2 →
     r1 = r2) ∧
  (∀ time1 time2 timeout1 timeout2 ro1 ro2 x1 x2,
     tsp_brute_force time1 distances timeout1 = Return (ro1, Some x1) →
     tsp_brute_force time2 distances timeout2 = Return (ro2, Some x2) →
     ro1 = ro2 ∧ x1 = x2).
Proof.
  split.
  - by intros start r1 r2 <- <-.
  - intros time1 time2 timeout1 timeout2 ro1 ro2 x1 x2.
    rewrite !tsp_brute_force_eq. by apply bf_loop_deterministic.
Qed.

Lemma solvers_deterministic_witness :
  Return ([1; 0; 3; 2]%nat, 4) = Return ([1; 0; 3; 2]%nat, 4) ∧
  Some [0; 1; 2; 3]%nat = Some [0; 1; 2; 3]%nat ∧ Fin 4 = Fin 4.
Proof.
  destruct (solvers_deterministic m4) as [Hnn Hbf]. split.
  - apply (Hnn 1%nat); reflexivity.
  - apply (Hbf frozen ticking 60 100); reflexivity.
Defined.

(** C10, as stated, fails: on the empty matrix [tsp_brute_force] does not
    always end in the error case.  With a budget of 0 and a clock that has
    advanced by the first check, it returns the timeout signal before it
    indexes the matrix. *)
Lemma empty_matrix_timeout_first :
  tsp_brute_force ticking [] 0 = Return (None, None) ∧
  ¬ ∃ e, tsp_brute_force ticking [] 0 = Raise e.
Proof. split; [done|]. by intros [e ?]. Qed.

(** C10, amended: on the empty matrix neither solver returns a (route,
    distance) pair.  [tsp_nearest_neighbor] raises [KeyError] when it removes
    the start from the empty unvisited set; [tsp_brute_force] raises
    [IndexError] when it costs the route [[0; 0]], unless its first timeout
    check has already found the budget exceeded, in which case it returns
    [(None, None)]. *)
Theorem empty_matrix_no_route time timeout start :
  tsp_nearest_neighbor [] start = Raise KeyError ∧
  tsp_brute_force time [] timeout
  = (if timeout <? time 1%nat - time 0%nat
     then Return (None, None) else Raise IndexError) ∧
  (∀ route dist,
     tsp_brute_force time [] timeout ≠ Return (Some route, Some dist)).
Proof.
  assert (tsp_brute_force time [] timeout
          = if timeout <? time 1%nat - time 0%nat
            then Return (None, None) else Raise IndexError) as Hbf.
  { unfold tsp_brute_force. simpl. by destruct (timeout <? _). }
  split_and!; [done|done|].
  intros route dist. rewrite Hbf. by destruct (timeout <? _).
Qed.

(** * Further properties of the solvers and the harness *)

(** ** Size of the enumeration *)

Lemma length_selections {A} (l : list A) : length (selections l) = length l.
Proof.
  induction l as [|x l IH]; [done|]. simpl. by rewrite length_fmap, IH.
Qed.

Lemma length_list_bind {A B} (f : A → list B) (c : nat) (l : list A) :
  (∀ y, y ∈ l → length (f y) = c) → length (l ≫= f) = (length l * c)%nat.
Proof.
  induction l as [|y l IH]; intros Hf; [done|].
  rewrite bind_cons, length_app, IH, Hf; [done|by left|].
  intros z ?. apply Hf. by right.
Qed.

Lemma length_permutations_r {A} r (l : list A) :
  length l = r → length (permutations_r r l) = fact r.
Proof.
  revert l. induction r as [|r IH]; intros l Hlen; [done|].
  simpl permutations_r.
  rewrite (length_list_bind _ (fact r)).
  - rewrite length_selections, Hlen. simpl. lia.
  - intros [x rest] (l1 & l2 & -> & ->)%selections_elem.
    rewrite length_fmap. apply IH.
    rewrite length_app in *. simpl in *. lia.
Qed.

(** X1: the loop of [tsp_brute_force] ranges over exactly (N-1)! candidate
    routes, the number [time_brute_force] prints as [num_routes]. *)
Theorem routes_enumerated (n : nat) :
  length (permutations (filter (λ i, i ≠ 0%nat) (seq 0 n))) = fact (n - 1).
Proof.
  rewrite other_locations_seq. unfold permutations.
  rewrite length_permutations_r; by rewrite length_seq.
Qed.

(** ** Outcomes of the exact solver *)

Lemma getitem2_raise distances i j e :
  getitem2 distances i j = Raise e → e = IndexError.
Proof.
  unfold getitem2, getitem, matrix in *.
  destruct (distances !! i) as [row|]; simpl.
  - destruct (row !! j); [done|]. by intros [= <-].
  - by intros [= <-].
Qed.

Lemma route_distance_raise distances acc route e :
  route_distance distances acc route = Raise e → e = IndexError.
Proof.
  revert acc. induction route as [|a [|b rest] IH]; intros acc; [done..|].
  rewrite route_distance_cons.
  destruct (getitem2 distances a b) as [d|e'] eqn:Hget; simpl.
  - apply IH.
  - intros [= <-]. by eapply getitem2_raise.
Qed.

Lemma bf_loop_raise time timeout start_time distances start perms st e :
  bf_loop time timeout start_time distances start perms st = Raise e →
  e = IndexError.
Proof.
  revert st. induction perms as [|p perms IH]; intros st; [done|].
  rewrite bf_loop_cons. destruct (timeout <? _); [done|].
  destruct (closed_cost distances start p) as [c|e'] eqn:Hc; simpl.
  - apply IH.
  - intros [= <-]. by eapply route_distance_raise.
Qed.

(** With every route costable, the loop ends in exactly one of two ways: a
    check found the budget exceeded and the result is [(None, None)], or no
    check did and the result carries a distance. *)
Lemma bf_loop_outcome time timeout start_time distances start perms st :
  (∀ q, q ∈ perms → ∃ c, closed_cost distances start q = Return c) →
  (∃ k, (k < length perms)%nat ∧
        timeout < time (S (routes_checked st + k)) - start_time ∧
        bf_loop time timeout start_time distances start perms st
        = Return (None, None))
  ∨ ((∀ k, (k < length perms)%nat →
           time (S (routes_checked st + k)) - start_time ≤ timeout) ∧
     ∃ ro x, bf_loop time timeout start_time distances start perms st
             = Return (ro, Some x)).
Proof.
  revert st. induction perms as [|p perms IH]; intros st Hcost.
  - right. split; [simpl; lia|]. simpl. eauto.
  - rewrite bf_loop_cons.
    destruct (Z.ltb_spec timeout (time (S (routes_checked st)) - start_time))
      as [Hfire|Hpass].
    { left. exists 0%nat. rewrite Nat.add_0_r. split_and!; [simpl; lia|done..]. }
    destruct (Hcost p) as [c Hc]; [by left|]. rewrite Hc, bind_Return_l.
    set (st' := bf_update _ c st).
    assert (routes_checked st' = S (routes_checked st)) as Hrc.
    { unfold st', bf_update. by destruct (lt_number _ _). }
    destruct (IH st') as [(k & Hk & Hfire & Hrun)|(Hall & Hrun)].
    { intros q ?. apply Hcost. by right. }
    + left. exists (S k). rewrite Hrc in Hfire.
      replace (routes_checked st + S k)%nat with (S (routes_checked st) + k)%nat
        by lia.
      split_and!; [simpl; lia|done..].
    + right. split; [|done]. intros [|k] Hk.
      * by rewrite Nat.add_0_r.
      * specialize (Hall k). rewrite Hrc in Hall.
        replace (routes_checked st + S k)%nat
          with (S (routes_checked st) + k)%nat by lia.
        apply Hall. simpl in Hk. lia.
Qed.

Lemma tsp_brute_force_outcome n distances time timeout :
  square n distances → (1 ≤ n)%nat →
  (∃ k, (k < fact (n - 1))%nat ∧ timeout < time (S k) - time 0%nat ∧
        tsp_brute_force time distances timeout = Return (None, None))
  ∨ ((∀ k, (k < fact (n - 1))%nat → time (S k) - time 0%nat ≤ timeout) ∧
     ∃ ro x, tsp_brute_force time distances timeout = Return (ro, Some x)).
Proof.
  intros Hsq Hn. rewrite tsp_brute_force_eq, (proj1 Hsq).
  pose proof (bf_loop_outcome time timeout (time 0%nat) distances 0
                (permutations (seq 1 (n - 1))) (BfState Inf None 0)) as Hout.
  unfold permutations in Hout at 2 4.
  rewrite length_permutations_r in Hout by by rewrite length_seq.
  rewrite length_seq in Hout. apply Hout.
  intros q Hq%permutations_elem. rewrite (closed_cost_square n) by done. eauto.
Qed.

(** X2: on a square matrix with N ≥ 1, [tsp_brute_force] returns the timeout
    signal exactly when one of its (N-1)! checks finds the budget exceeded. *)
Theorem timeout_iff_check_expired n distances time timeout :
  square n distances → (1 ≤ n)%nat →
  tsp_brute_force time distances timeout = Return (None, None)
  ↔ ∃ k, (k < fact (n - 1))%nat ∧ timeout < time (S k) - time 0%nat.
Proof.
  intros Hsq Hn.
  destruct (tsp_brute_force_outcome n distances time timeout Hsq Hn)
    as [(k & Hk & Hfire & Hrun)|(Hall & ro & x & Hrun)].
  - split; [eauto|done].
  - rewrite Hrun. split; [done|].
    intros (k & Hk & Hfire). specialize (Hall k Hk). lia.
Qed.

Lemma timeout_iff_check_expired_witness :
  tsp_brute_force ticking m4 3 = Return (None, None)
  ↔ ∃ k, (k < fact (4 - 1))%nat ∧ 3 < ticking (S k) - ticking 0%nat.
Proof.
  apply (timeout_iff_check_expired 4 m4 ticking 3).
  - split; [reflexivity|]. repeat constructor.
  - lia.
Defined.

(** X3: on a square matrix of [int]s with N ≥ 1, [tsp_brute_force] returns
    a route and a distance exactly when none of its (N-1)! checks finds the
    budget exceeded; it has no third outcome there. *)
Theorem completes_iff_no_check_expired n distances time timeout :
  square n distances → (1 ≤ n)%nat →
  (∃ route dist,
     tsp_brute_force time distances timeout
     = Return (Some route, Some (Fin dist)))
  ↔ ∀ k, (k < fact (n - 1))%nat → time (S k) - time 0%nat ≤ timeout.
Proof.
  intros Hsq Hn.
  destruct (tsp_brute_force_outcome n distances time timeout Hsq Hn)
    as [(k & Hk & Hfire & Hrun)|(Hall & ro & x & Hrun)].
  - rewrite Hrun. split.
    + by intros (? & ? & ?).
    + intros Hall. specialize (Hall k Hk). lia.
  - split; [done|]. intros _.
    destruct (tsp_brute_force_valid n distances Hsq Hn _ _ _ _ Hrun)
      as (route & dist & -> & -> & _).
    eauto.
Qed.

Lemma completes_iff_no_check_expired_witness :
  (∃ route dist,
     tsp_brute_force ticking m4 6 = Return (Some route, Some (Fin dist)))
  ↔ ∀ k, (k < fact (4 - 1))%nat → ticking (S k) - ticking 0%nat ≤ 6.
Proof.
  apply (completes_iff_no_check_expired 4 m4 ticking 6).
  - split; [reflexivity|]. repeat constructor.
  - lia.
Defined.

(** X4: the only exception [tsp_brute_force] can raise is [IndexError], and
    it raises none on a square matrix with at least one location. *)
Theorem brute_force_raises_only_index_error distances time timeout e :
  tsp_brute_force time distances timeout = Raise e →
  e = IndexError ∧
  ¬ (square (length distances) distances ∧ (1 ≤ length distances)%nat).
Proof.
  intros Hrun. split.
  - unfold tsp_brute_force in Hrun. by eapply bf_loop_raise.
  - intros [Hsq Hn].
    destruct (tsp_brute_force_outcome _ distances time timeout Hsq Hn)
      as [(k & _ & _ & Hrun')|(_ & ro & x & Hrun')]; congruence.
Qed.

Lemma brute_force_raises_only_index_error_witness :
  IndexError = IndexError ∧
  ¬ (square (length [[0]; [1; 0]]) [[0]; [1; 0]] ∧
     (1 ≤ length [[0]; [1; 0]])%nat).
Proof.
  apply (brute_force_raises_only_index_error [[0]; [1; 0]] frozen 60).
  reflexivity.
Defined.

(** ** The choice made by [min] *)

(** What [min_loop] returns splits the items: strictly larger keys before the
    item returned, keys at least as large after it. *)
Lemma min_loop_first key minitem minval items r :
  min_loop key minitem minval items = Return r →
  (r = minitem ∧
   ∀ x, x ∈ items → ∃ v', key x = Return v' ∧ minval ≤ v')
  ∨ (∃ before after v,
       items = before ++ r :: after ∧ key r = Return v ∧ v < minval ∧
       (∀ x, x ∈ before → ∃ v', key x = Return v' ∧ v < v') ∧
       (∀ x, x ∈ after → ∃ v', key x = Return v' ∧ v ≤ v')).
Proof.
  revert minitem minval.
  induction items as [|x items IH]; intros minitem minval Hrun.
  - injection Hrun as <-. left. split; [done|]. by intros ? ?%elem_of_nil.
  - simpl in Hrun. apply bind_Return in Hrun as (vx & Hvx & Hrun).
    destruct (Z.ltb_spec vx minval) as [Hlt|Hge].
    + right. apply IH in Hrun
        as [[-> Hall]|(before & after & v & -> & Hr & Hv & Hb & Ha)].
      * exists [], items, vx. split_and!; [done..| |done].
        by intros ? ?%elem_of_nil.
      * exists (x :: before), after, v. split_and!; [done|done|lia| |done].
        intros y [->|?]%elem_of_cons; [eauto|by apply Hb].
    + apply IH in Hrun
        as [[-> Hall]|(before & after & v & -> & Hr & Hv & Hb & Ha)].
      * left. split; [done|].
        intros y [->|?]%elem_of_cons; [eauto|by apply Hall].
      * right. exists (x :: before), after, v. split_and!; [done..| |done].
        intros y [->|?]%elem_of_cons; [|by apply Hb].
        exists vx. split; [done|lia].
Qed.

Lemma py_min_first items key r :
  py_min items key = Return r →
  ∃ before after v,
    items = before ++ r :: after ∧ key r = Return v ∧
    (∀ x, x ∈ before → ∃ v', key x = Return v' ∧ v < v') ∧
    (∀ x, x ∈ after → ∃ v', key x = Return v' ∧ v ≤ v').
Proof.
  destruct items as [|x items]; [done|]. simpl. intros Hrun.
  apply bind_Return in Hrun as (vx & Hvx & Hrun).
  apply min_loop_first in Hrun
    as [[-> Hall]|(before & after & v & -> & Hr & Hv & Hb & Ha)].
  - exists [], items, vx. split_and!; [done..| |done].
    by intros ? ?%elem_of_nil.
  - exists (x :: before), after, v. split_and!; [done..| |done].
    intros y [->|?]%elem_of_cons; [eauto|by apply Hb].
Qed.

Lemma min_loop_raise key minitem minval items e :
  min_loop key minitem minval items = Raise e →
  ∃ x, x ∈ items ∧ key x = Raise e.
Proof.
  revert minitem minval.
  induction items as [|x items IH]; intros minitem minval; [done|]. simpl.
  destruct (key x) as [vx|e'] eqn:Hvx; simpl.
  - destruct (vx <? minval); intros (y & ? & ?)%IH; exists y; by split; [right|].
  - intros [= <-]. exists x. by split; [left|].
Qed.

Lemma py_min_raise items key e :
  py_min items key = Raise e →
  items = [] ∧ e = ValueError ∨ ∃ x, x ∈ items ∧ key x = Raise e.
Proof.
  destruct items as [|x items]; simpl; [intros [= <-]; by left|].
  destruct (key x) as [vx|e'] eqn:Hvx; simpl.
  - intros (y & ? & ?)%min_loop_raise. right. exists y. by split; [right|].
  - intros [= <-]. right. exists x. by split; [left|].
Qed.

(** ** Exceptions of the approximate solver *)

Lemma nn_body_Return distances st st' :
  nn_body distances st = Return st' →
  ∃ nearest d,
    py_min (unvisited st) (λ x, getitem2 distances (current st) x)
    = Return nearest ∧
    getitem2 distances (current st) nearest = Return d ∧
    nearest ∈ unvisited st ∧
    st' = NnState (filter (λ y, y ≠ nearest) (unvisited st)) nearest
                  (route st ++ [nearest]) (total_distance st + d).
Proof.
  unfold nn_body. intros Hrun.
  apply bind_Return in Hrun as (nearest & Hmin & Hrun).
  apply bind_Return in Hrun as (d & Hd & Hrun).
  apply bind_Return in Hrun as (u & Hu & Hrun).
  unfold set_remove in Hu. case_decide as Hin; [|done].
  injection Hu as <-. injection Hrun as <-. by exists nearest, d.
Qed.

Lemma nn_body_raise distances st e :
  nn_body distances st = Raise e → unvisited st ≠ [] → e = IndexError.
Proof.
  unfold nn_body. intros Hrun Hne.
  destruct (py_min _ _) as [nearest|e'] eqn:Hmin; simpl in Hrun.
  - destruct (getitem2 _ _ nearest) as [d|e'] eqn:Hd; simpl in Hrun.
    + apply py_min_first in Hmin as (before & after & _ & Hsplit & _).
      rewrite set_remove_member in Hrun; [done|].
      rewrite Hsplit. apply elem_of_app. right. by left.
    + injection Hrun as <-. by eapply getitem2_raise.
  - injection Hrun as <-.
    apply py_min_raise in Hmin as [[? _]|(x & _ & Hx)]; [done|].
    by eapply getitem2_raise.
Qed.

Lemma nn_while_raise distances st e :
  nn_while distances st = Raise e → e = IndexError.
Proof.
  remember (length (unvisited st)) as k eqn:Hk. revert st Hk.
  induction k as [k IH] using lt_wf_ind. intros st -> Hrun.
  rewrite nn_while_eq in Hrun.
  destruct (unvisited st) as [|x u] eqn:Hu; [done|].
  destruct (nn_body distances st) as [st1|e'] eqn:Hbody; simpl in Hrun.
  - eapply IH; [|done|exact Hrun]. rewrite <-Hu. by eapply nn_body_shrinks.
  - injection Hrun as <-. eapply nn_body_raise; [done|]. by rewrite Hu.
Qed.

Lemma start_out_of_range_nat distances start :
  tsp_nearest_neighbor distances start = Raise KeyError
  ↔ (length distances ≤ start)%nat.
Proof.
  unfold tsp_nearest_neighbor, set_remove. case_decide as Hin.
  - apply elem_of_seq in Hin. split; [|lia]. rewrite bind_Return_l.
    destruct (nn_while _ _) as [[u cur r total]|e] eqn:Hloop; simpl.
    + destruct (getitem2 _ _ _) as [d|e] eqn:Hd; simpl; [done|].
      apply getitem2_raise in Hd as ->. done.
    + apply nn_while_raise in Hloop as ->. done.
  - split; [|done]. intros _. rewrite elem_of_seq in Hin. lia.
Qed.

(** X5: for any [int] given as start, negative ones included,
    [tsp_nearest_neighbor] raises [KeyError] exactly when the start is not one
    of the row numbers [0 .. len(distances) - 1], whatever the matrix
    holds. *)
Theorem start_out_of_range_iff distances start :
  tsp_nearest_neighbor_int distances start = Raise KeyError
  ↔ ¬ (0 ≤ start < Z.of_nat (length distances)).
Proof.
  unfold tsp_nearest_neighbor_int.
  destruct (Z.ltb_spec start 0) as [Hneg|Hpos]; [split; [lia|done]|].
  rewrite start_out_of_range_nat. lia.
Qed.

(** X6: any other exception of [tsp_nearest_neighbor] is an [IndexError],
    raised only when the matrix is not square: the solver fails on malformed
    input and on nothing else. *)
Theorem nearest_neighbor_failures distances start e :
  tsp_nearest_neighbor distances start = Raise e →
  (e = KeyError ∧ (length distances ≤ start)%nat)
  ∨ (e = IndexError ∧ (start < length distances)%nat ∧
     ¬ square (length distances) distances).
Proof.
  intros Hrun. destruct (decide (start < length distances)%nat) as [Hlt|Hge].
  - right. split_and!; [|done|].
    + revert Hrun. unfold tsp_nearest_neighbor.
      rewrite set_remove_member, bind_Return_l by (apply elem_of_seq; lia).
      destruct (nn_while _ _) as [[u cur r total]|e'] eqn:Hloop; simpl.
      * destruct (getitem2 _ _ _) as [d|e'] eqn:Hd; simpl; [done|].
        intros [= <-]. by eapply getitem2_raise.
      * intros [= <-]. by eapply nn_while_raise.
    + intros Hsq.
      destruct (tsp_nearest_neighbor_valid _ distances Hsq start Hlt)
        as (route & dist & Hok & _).
      congruence.
  - left. split; [|lia].
    assert (tsp_nearest_neighbor distances start = Raise KeyError) as Hkey.
    { unfold tsp_nearest_neighbor, set_remove.
      rewrite decide_False; [done|]. rewrite elem_of_seq. lia. }
    congruence.
Qed.

Lemma nearest_neighbor_failures_witness :
  (IndexError = KeyError ∧ (length [[0]; [1; 0]] ≤ 0)%nat)
  ∨ (IndexError = IndexError ∧ (0 < length [[0]; [1; 0]])%nat ∧
     ¬ square (length [[0]; [1; 0]]) [[0]; [1; 0]]).
Proof.
  apply (nearest_neighbor_failures [[0]; [1; 0]] 0 IndexError). reflexivity.
Defined.

(** ** The greedy choice of the approximate solver *)

Lemma StronglySorted_lt_seq (a len : nat) : StronglySorted lt (seq a len).
Proof.
  revert a. induction len as [|len IH]; intros a; simpl; [constructor|].
  apply StronglySorted_cons. split; [|apply IH].
  apply Forall_forall. intros i ?%elem_of_seq. lia.
Qed.

Lemma StronglySorted_filter {A} (R : relation A) (P : A → Prop)
    `{!∀ x, Decision (P x)} (l : list A) :
  StronglySorted R l → StronglySorted R (filter P l).
Proof.
  induction 1 as [|x l _ IH Hx]; [constructor|].
  rewrite filter_cons. case_decide; [|done].
  apply StronglySorted_cons. split; [|done].
  apply Forall_forall. intros y [_ Hy]%list_elem_of_filter.
  by apply (proj1 (Forall_forall _ _) Hx).
Qed.

Section nearest_neighbor_greedy.
Context (n : nat) (distances : matrix) (Hsq : square n distances).
Context (start : nat).

Lemma nn_body_greedy st st' :
  nn_inv n distances start st →
  StronglySorted lt (unvisited st) →
  nn_greedy distances st →
  nn_body distances st = Return st' →
  nn_greedy distances st' ∧ StronglySorted lt (unvisited st').
Proof using Hsq.
  intros Hinv Hsorted Hgreedy Hbody.
  apply nn_body_Return in Hbody as (nearest & d & Hmin & _ & Hin & ->).
  split; [|by apply StronglySorted_filter].
  pose proof (nn_inv_current n distances start st Hinv) as Hcur.
  assert (∀ x, x ∈ unvisited st → (x < n)%nat) as Hun.
  { intros x ?. apply (nn_inv_bound n distances start st); [done|].
    apply elem_of_app. by right. }
  apply py_min_first in Hmin as (before & after & v & Hsplit & Hv & Hb & Ha).
  rewrite (getitem2_entry n) in Hv by auto. injection Hv as <-.
  rewrite Hsplit in Hsorted.
  apply StronglySorted_app in Hsorted as (Hlow & _ & Hhigh).
  apply StronglySorted_cons in Hhigh as [Hhigh _].
  assert (∀ c, c ∈ unvisited st →
            entry distances (current st) nearest
            ≤ entry distances (current st) c ∧
            (entry distances (current st) c
             = entry distances (current st) nearest → (nearest ≤ c)%nat))
    as Hnearest.
  { intros c Hc. pose proof (Hun c Hc) as Hcn. rewrite Hsplit in Hc.
    apply elem_of_app in Hc as [Hc|[->|Hc]%elem_of_cons].
    - destruct (Hb c Hc) as (v' & Hv' & ?).
      rewrite (getitem2_entry n) in Hv' by auto. injection Hv' as <-.
      split; lia.
    - split; [lia|done].
    - destruct (Ha c Hc) as (v' & Hv' & ?).
      rewrite (getitem2_entry n) in Hv' by auto. injection Hv' as <-.
      split; [done|]. intros _.
      pose proof (proj1 (Forall_forall _ _) Hhigh c Hc). lia. }
  destruct Hinv as (_ & _ & Hlast & _). rewrite last_lookup in Hlast.
  intros i a b c Ha' Hb' Hc. simpl in *.
  apply lookup_snoc_Some in Hb' as [[Hi Hb']|[Hi <-]].
  - apply lookup_snoc_Some in Ha' as [[_ Ha']|[? _]]; [|lia].
    apply (Hgreedy i a b c Ha' Hb').
    destruct Hc as [(j & Hij & Hj)|[_ Hc]%list_elem_of_filter]; [|by right].
    apply lookup_snoc_Some in Hj as [[_ Hj]|[_ <-]]; [left; eauto|by right].
  - apply lookup_snoc_Some in Ha' as [[_ Ha']|[? _]]; [|lia].
    replace i with (pred (length (route st))) in Ha' by lia.
    rewrite Hlast in Ha'. injection Ha' as <-.
    destruct Hc as [(j & Hij & Hj)|[_ Hc]%list_elem_of_filter];
      [|by apply Hnearest].
    apply lookup_snoc_Some in Hj as [[? _]|[_ <-]]; [lia|].
    by apply Hnearest.
Qed.

Lemma nn_while_greedy st st' :
  nn_inv n distances start st →
  StronglySorted lt (unvisited st) →
  nn_greedy distances st →
  nn_while distances st = Return st' →
  nn_greedy distances st'.
Proof using Hsq.
  remember (length (unvisited st)) as k eqn:Hk. revert st Hk.
  induction k as [k IH] using lt_wf_ind.
  intros st -> Hinv Hsorted Hgreedy Hrun.
  rewrite nn_while_eq in Hrun.
  destruct (unvisited st) as [|x u] eqn:Hu; [by injection Hrun as <-|].
  apply bind_Return in Hrun as (st1 & Hbody & Hrun).
  destruct (nn_body_inv n distances Hsq start st) as (st1' & Hbody' & Hinv1);
    [done|by rewrite Hu|].
  assert (st1' = st1) as -> by congruence.
  rewrite <-Hu in Hsorted.
  destruct (nn_body_greedy st st1) as [Hgreedy1 Hsorted1]; [done..|].
  pose proof (nn_body_shrinks _ _ _ Hbody) as Hshrink. rewrite Hu in Hshrink.
  by eapply (IH _ Hshrink st1).
Qed.

Lemma tsp_nearest_neighbor_greedy route dist :
  (start < n)%nat →
  tsp_nearest_neighbor distances start = Return (route, dist) →
  ∀ i j a b c,
    (i < j)%nat →
    route !! i = Some a → route !! S i = Some b → route !! j = Some c →
    entry distances a b ≤ entry distances a c ∧
    (entry distances a c = entry distances a b → (b ≤ c)%nat).
Proof using Hsq.
  intros Hstart. unfold tsp_nearest_neighbor. rewrite (proj1 Hsq).
  assert (start ∈ seq 0 n) as Hin by (apply elem_of_seq; lia).
  rewrite set_remove_member, bind_Return_l by done.
  set (st0 := NnState (filter (λ y, y ≠ start) (seq 0 n)) start [start] 0).
  intros Hrun. apply bind_Return in Hrun as (st & Hloop & Hrun).
  assert (nn_greedy distances st) as Hgreedy.
  { apply (nn_while_greedy st0); [| | |done].
    - split_and!; try done. simpl.
      apply filter_remove_perm; [apply NoDup_seq|done].
    - apply StronglySorted_filter, StronglySorted_lt_seq.
    - intros i a b c _ Hb. by destruct i. }
  destruct st as [u cur r total]. simpl in Hrun.
  apply bind_Return in Hrun as (d & _ & [= <- _]).
  intros i j a b c Hij Ha Hb Hc. apply (Hgreedy i a b c); [done..|].
  left. eauto.
Qed.
End nearest_neighbor_greedy.

(** X7: on a square matrix the route of [tsp_nearest_neighbor] is greedy:
    every step goes to a location that is at least as near to the current one
    as every location the route visits later. *)
Theorem nearest_neighbor_is_greedy n distances start route dist :
  square n distances → (start < n)%nat →
  tsp_nearest_neighbor distances start = Return (route, dist) →
  greedy_route distances route.
Proof.
  intros Hsq Hstart Hrun i j a b c Hij Ha Hb Hc.
  by apply (tsp_nearest_neighbor_greedy n distances Hsq start route dist
              Hstart Hrun i j a b c).
Qed.

Lemma nearest_neighbor_is_greedy_witness :
  greedy_route m5 [0; 3; 2; 1; 4]%nat.
Proof.
  apply (nearest_neighbor_is_greedy 5 m5 0 [0; 3; 2; 1; 4]%nat 21).
  - split; [reflexivity|]. repeat constructor.
  - lia.
  - reflexivity.
Defined.

(** X8: with the unvisited set iterated in increasing order, ties in
    [min] go to the lowest location number: among the locations visited later
    that are exactly as near as the next one, none has a smaller number. *)
Theorem nearest_neighbor_ties_lowest n distances start route dist :
  square n distances → (start < n)%nat →
  tsp_nearest_neighbor distances start = Return (route, dist) →
  lowest_index_ties distances route.
Proof.
  intros Hsq Hstart Hrun i j a b c Hij Ha Hb Hc.
  by apply (tsp_nearest_neighbor_greedy n distances Hsq start route dist
              Hstart Hrun i j a b c).
Qed.

Lemma nearest_neighbor_ties_lowest_witness :
  lowest_index_ties m4 [0; 1; 2; 3]%nat.
Proof.
  apply (nearest_neighbor_ties_lowest 4 m4 0 [0; 1; 2; 3]%nat 4).
  - split; [reflexivity|]. repeat constructor.
  - lia.
  - reflexivity.
Defined.

(** ** The optimum against the greedy route from any start *)

Lemma path_cost_app distances (l1 : list nat) (b : nat) (l2 : list nat) :
  path_cost distances (l1 ++ b :: l2)
  = path_cost distances l1
    + from_option (λ z, entry distances z b) 0 (last l1)
    + path_cost distances (b :: l2).
Proof.
  induction l1 as [|a [|a' l1] IH]; [simpl; lia| |].
  - change ([a] ++ b :: l2) with (a :: b :: l2).
    rewrite path_cost_cons. simpl. lia.
  - change ((a :: a' :: l1) ++ b :: l2) with (a :: a' :: (l1 ++ b :: l2)).
    rewrite !path_cost_cons.
    change (a' :: l1 ++ b :: l2) with ((a' :: l1) ++ b :: l2).
    rewrite IH. change (last (a :: a' :: l1)) with (last (a' :: l1)). lia.
Qed.

Lemma tour_cost_cons distances (a : nat) (l : list nat) :
  tour_cost distances (a :: l)
  = path_cost distances (a :: l) + entry distances (default a (last l)) a.
Proof.
  unfold tour_cost. rewrite last_cons. by destruct (last l).
Qed.

(** The cost of a closed tour does not depend on where it is entered. *)
Lemma tour_cost_rotate distances (l1 : list nat) (x : nat) (l2 : list nat) :
  tour_cost distances (l1 ++ x :: l2) = tour_cost distances (x :: l2 ++ l1).
Proof.
  destruct l1 as [|a l1]; [by rewrite app_nil_r|].
  change ((a :: l1) ++ x :: l2) with (a :: (l1 ++ x :: l2)).
  rewrite !tour_cost_cons.
  change (a :: l1 ++ x :: l2) with ((a :: l1) ++ x :: l2).
  change (x :: l2 ++ a :: l1) with ((x :: l2) ++ a :: l1).
  rewrite !path_cost_app, !last_app, !last_cons.
  destruct (last l1), (last l2); simpl; lia.
Qed.

Lemma tsp_brute_force_le_valid n distances time timeout ro x start route dist :
  square n distances → (1 ≤ n)%nat →
  tsp_brute_force time distances timeout = Return (ro, Some x) →
  valid_route n distances start route dist →
  ∃ d_bf, x = Fin d_bf ∧ d_bf ≤ dist.
Proof.
  intros Hsq Hn Hbf (Hperm & _ & _ & ->).
  destruct (tsp_brute_force_min n distances Hsq Hn _ _ _ _ Hbf)
    as (d_bf & -> & _ & Hmin).
  exists d_bf. split; [done|].
  assert (0%nat ∈ route) as (l1 & l2 & ->)%list_elem_of_split.
  { rewrite Hperm. apply elem_of_seq. lia. }
  rewrite tour_cost_rotate. apply Hmin. unfold is_tour_perm.
  apply (inj (cons 0%nat)). rewrite <-seq_start, <-Hperm by done.
  by rewrite <-Permutation_middle, (comm (++) l1).
Qed.

(** X9: on a square matrix of [int]s, where sums are exact, the distance of
    [tsp_nearest_neighbor] is at least the distance of a completed
    [tsp_brute_force] from whichever start index the approximate solver is
    run, not only from 0. *)
Theorem nearest_neighbor_any_start_not_below_optimum
    n distances time timeout ro x start route d_nn :
  square n distances → (start < n)%nat →
  tsp_brute_force time distances timeout = Return (ro, Some x) →
  tsp_nearest_neighbor distances start = Return (route, d_nn) →
  ∃ d_bf, x = Fin d_bf ∧ d_bf ≤ d_nn.
Proof.
  intros Hsq Hstart Hbf Hnn.
  destruct (tsp_nearest_neighbor_valid n distances Hsq start Hstart)
    as (route' & dist' & Hrun & Hvalid).
  rewrite Hnn in Hrun. injection Hrun as <- <-.
  eapply tsp_brute_force_le_valid; [done|lia|done..].
Qed.

Lemma nearest_neighbor_any_start_not_below_optimum_witness :
  ∃ d_bf, Fin 19 = Fin d_bf ∧ d_bf ≤ 23.
Proof.
  apply (nearest_neighbor_any_start_not_below_optimum 5 m5 frozen 60
           (Some [0; 2; 1; 4; 3]%nat) (Fin 19) 2 [2; 0; 3; 1; 4]%nat 23).
  - split; [reflexivity|]. repeat constructor.
  - lia.
  - reflexivity.
  - reflexivity.
Defined.

(** ** Degenerate sizes *)

Lemma valid_route_one distances start route dist :
  valid_route 1 distances start route dist →
  route = [0%nat] ∧ start = 0%nat ∧ dist = entry distances 0 0.
Proof.
  intros (Hperm & _ & Hhead & ->).
  apply Permutation_singleton_r in Hperm as ->.
  injection Hhead as <-. split_and!; [done..|]. unfold tour_cost. simpl. lia.
Qed.

(** X10: on a 1×1 matrix both solvers return the single-element route [[0]]
    with distance [distances[0][0]], the self-loop, which is 0 when the
    diagonal is zero. *)
Theorem single_location_route distances time timeout :
  square 1 distances →
  (∀ ro x,
     tsp_brute_force time distances timeout = Return (ro, Some x) →
     ro = Some [0%nat] ∧ x = Fin (entry distances 0 0)) ∧
  tsp_nearest_neighbor distances 0 = Return ([0%nat], entry distances 0 0).
Proof.
  intros Hsq. assert (1 ≤ 1)%nat as Hn by lia. split.
  - intros ro x Hrun.
    by destruct (tsp_brute_force_valid 1 distances Hsq Hn _ _ _ _ Hrun)
      as (route & dist & -> & -> & (-> & _ & ->)%valid_route_one).
  - by destruct (tsp_nearest_neighbor_valid 1 distances Hsq 0%nat)
      as (route & dist & -> & (-> & _ & ->)%valid_route_one); [lia|].
Qed.

Lemma single_location_route_witness :
  (Some [0%nat] = Some [0%nat] ∧ Fin 0 = Fin (entry m1 0 0)) ∧
  tsp_nearest_neighbor m1 0 = Return ([0%nat], entry m1 0 0).
Proof.
  assert (square 1 m1) as Hsq by (split; [reflexivity|repeat constructor]).
  destruct (single_location_route m1 frozen 60 Hsq) as [Hbf Hnn]. split.
  - apply (Hbf (Some [0%nat]) (Fin 0)). reflexivity.
  - exact Hnn.
Defined.

(** X11: on every square 2×2 matrix, symmetric or not, both solvers return
    the route [[0; 1]] with distance [distances[0][1] + distances[1][0]]. *)
Theorem two_locations_any_matrix distances time timeout :
  square 2 distances →
  (∀ ro x,
     tsp_brute_force time distances timeout = Return (ro, Some x) →
     ro = Some [0; 1]%nat ∧
     x = Fin (entry distances 0 1 + entry distances 1 0)) ∧
  tsp_nearest_neighbor distances 0
  = Return ([0; 1]%nat, entry distances 0 1 + entry distances 1 0).
Proof.
  intros Hsq. assert (1 ≤ 2)%nat as Hn by lia. split.
  - intros ro x Hrun.
    by destruct (tsp_brute_force_valid 2 distances Hsq Hn _ _ _ _ Hrun)
      as (route & dist & -> & -> & [-> ->]%valid_route_two).
  - by destruct (tsp_nearest_neighbor_valid 2 distances Hsq 0%nat)
      as (route & dist & -> & [-> ->]%valid_route_two); [lia|].
Qed.

Lemma two_locations_any_matrix_witness :
  (Some [0; 1]%nat = Some [0; 1]%nat ∧
   Fin 3 = Fin (entry m2_asym 0 1 + entry m2_asym 1 0)) ∧
  tsp_nearest_neighbor m2_asym 0
  = Return ([0; 1]%nat, entry m2_asym 0 1 + entry m2_asym 1 0).
Proof.
  assert (square 2 m2_asym) as Hsq by (split; [reflexivity|repeat constructor]).
  destruct (two_locations_any_matrix m2_asym frozen 60 Hsq) as [Hbf Hnn]. split.
  - apply (Hbf (Some [0; 1]%nat) (Fin 3)). reflexivity.
  - exact Hnn.
Defined.

(** ** A larger budget *)

(** X12: a larger timeout never loses a result: if [tsp_brute_force]
    completes on a square matrix under some budget, then with the same clock
    readings and any budget at least as large it returns the same route and
    distance. *)
Theorem larger_timeout_same_result
    n distances time timeout timeout' route dist :
  square n distances → (1 ≤ n)%nat → timeout ≤ timeout' →
  tsp_brute_force time distances timeout
  = Return (Some route, Some (Fin dist)) →
  tsp_brute_force time distances timeout'
  = Return (Some route, Some (Fin dist)).
Proof.
  intros Hsq Hn Hle Hrun.
  destruct (tsp_brute_force_outcome n distances time timeout Hsq Hn)
    as [(k & _ & _ & Hrun')|(Hall & _)]; [congruence|].
  destruct (tsp_brute_force_outcome n distances time timeout' Hsq Hn)
    as [(k & Hk & Hfire & _)|(_ & ro & x & Hrun')].
  { specialize (Hall k Hk). lia. }
  rewrite Hrun'. rewrite !tsp_brute_force_eq in *.
  destruct (bf_loop_deterministic _ _ _ _ _ _ _ _ _ _ _ _ _ _ _ eq_refl eq_refl
              Hrun Hrun') as [<- <-].
  done.
Qed.

Lemma larger_timeout_same_result_witness :
  tsp_brute_force ticking m4 100 = Return (Some [0; 1; 2; 3]%nat, Some (Fin 4)).
Proof.
  apply (larger_timeout_same_result 4 m4 ticking 6 100).
  - split; [reflexivity|]. repeat constructor.
  - lia.
  - lia.
  - reflexivity.
Defined.

(** ** What the reporting modes print *)

Section reports.
Context (n : nat) (distances : matrix).
Context (Hsq : square n distances) (Hn : (1 ≤ n)%nat).

Lemma nearest_neighbor_from_depot :
  ∃ route dist,
    tsp_nearest_neighbor distances 0 = Return (route, dist) ∧
    valid_route n distances 0 route dist.
Proof using Hsq Hn. apply tsp_nearest_neighbor_valid; [done|lia]. Qed.


Lemma fits_float_quotient (d_nn m : Z) :
  m ≠ 0 → fits_float d_nn = true →
  (float_limit * Z.abs m <=? Z.abs d_nn) = false.
Proof.
  unfold fits_float. intros Hm Hfits%Z.ltb_lt. apply Z.leb_gt.
  assert (0 < float_limit) by done. nia.
Qed.

Lemma completed_reports time size ro m time_bf time_nn :
  tsp_brute_force time distances 60 = Return (ro, Some (Fin m)) →
  ∃ route d_nn,
    tsp_nearest_neighbor distances 0 = Return (route, d_nn) ∧ m ≤ d_nn ∧
    test_small_cases time size distances
    = (if fits_float m then
         if fits_float d_nn then
           if decide (m = 0) then Raise ZeroDivisionError else
           Return [ [Str "Testing "; Int (Z.of_nat size); Str " locations..."];
                    [Str "  Brute Force: Distance = "; Fixed 2 (inject_Z m)];
                    [Str "  Nearest Neighbor: Distance = ";
                     Fixed 2 (inject_Z d_nn)];
                    [Str "  Approximation Quality: "; percent_field d_nn m;
                     Str "% of optimal"] ]
         else Raise OverflowError
       else Raise OverflowError) ∧
    compare_all_approaches time size distances time_bf time_nn
    = (if decide (m = 0) then Raise ZeroDivisionError else
       if fits_float m && fits_float d_nn then
         Return [Int (Z.of_nat size); Fixed 2 (inject_Z m);
                 Fixed 2 (inject_Z d_nn); percent_field d_nn m;
                 Fixed 3 time_bf; Fixed 6 time_nn]
       else Raise OverflowError).
Proof using Hsq Hn.
  intros Hbf.
  destruct nearest_neighbor_from_depot as (route & d_nn & Hnn & Hvalid).
  destruct (tsp_brute_force_le_valid n distances _ _ _ _ _ _ _ Hsq Hn Hbf Hvalid)
    as (m' & [= <-] & Hle).
  destruct (tsp_brute_force_valid n distances Hsq Hn _ _ _ _ Hbf)
    as (r & ? & -> & _).
  exists route, d_nn. split_and!; [done..| |].
  - unfold test_small_cases. rewrite Hbf. simpl.
    destruct (fits_float m) eqn:Hm; simpl; [|done]. rewrite Hnn. simpl.
    destruct (fits_float d_nn) eqn:Hd; simpl; [|done].
    case_decide as H0; [done|]. by rewrite fits_float_quotient.
  - unfold compare_all_approaches. rewrite Hbf. simpl. rewrite Hnn. simpl.
    case_decide as H0; [done|].
    destruct (float_limit * Z.abs m <=? Z.abs d_nn) eqn:Hq; simpl.
    + destruct (fits_float d_nn) eqn:Hd.
      * by rewrite fits_float_quotient in Hq.
      * by rewrite andb_false_r.
    + destruct (fits_float m); simpl; [|done]. by destruct (fits_float d_nn).
Qed.
End reports.







(** X16: when the exact solver completes on a square matrix of [int]s with
    distance 0, the quality ratio divides by zero:
    [compare_all_approaches], which divides first, stops with
    [ZeroDivisionError]; [test_small_cases], which formats the
    nearest-neighbour distance d_nn first, stops with [ZeroDivisionError]
    when d_nn can be formatted as a float and with [OverflowError] when it
    cannot. *)
Theorem zero_optimum_divides_by_zero n distances time size ro time_bf time_nn :
  square n distances → (1 ≤ n)%nat →
  tsp_brute_force time distances 60 = Return (ro, Some (Fin 0)) →
  ∃ route d_nn,
    tsp_nearest_neighbor distances 0 = Return (route, d_nn) ∧
    test_small_cases time size distances
    = (if fits_float d_nn then Raise ZeroDivisionError
       else Raise OverflowError) ∧
    compare_all_approaches time size distances time_bf time_nn
    = Raise ZeroDivisionError.
Proof.
  intros Hsq Hn Hbf.
  destruct (completed_reports n distances Hsq Hn time size ro 0
              time_bf time_nn Hbf)
    as (route & d_nn & Hnn & _ & Htest & Hcmp).
  exists route, d_nn. split_and!; [done|by rewrite Htest|by rewrite Hcmp].
Qed.

Lemma zero_optimum_divides_by_zero_witness :
  ∃ route d_nn,
    tsp_nearest_neighbor m1 0 = Return (route, d_nn) ∧
    test_small_cases frozen 1 m1
    = (if fits_float d_nn then Raise ZeroDivisionError
       else Raise OverflowError) ∧
    compare_all_approaches frozen 1 m1 0 0 = Raise ZeroDivisionError.
Proof.
  apply (zero_optimum_divides_by_zero 1 m1 frozen 1 (Some [0%nat]) 0 0).
  - split; [reflexivity|]. repeat constructor.
  - lia.
  - reflexivity.
Defined.



(** Entries too large for a float: the reports stop with [OverflowError]
    where they format or divide, and a quotient whose hundredfold is no
    finite float prints as [inf]. *)
Example huge_entries :
  let big := [[0; 10 ^ 400]; [10 ^ 400; 0]] in
  time_approximation 2 big 0 = Raise OverflowError ∧
  time_brute_force frozen 2 big 0 = Raise OverflowError ∧
  test_small_cases frozen 2 big = Raise OverflowError ∧
  compare_all_approaches frozen 2 big 0 0 = Raise OverflowError.
Proof. vm_compute. done. Qed.

Example huge_detour :
  let d := [[0; 0; 0; 0]; [0; 0; 0; 0]; [0; 0; 0; 10 ^ 400];
            [0; 0; 10 ^ 400; 0]] in
  tsp_brute_force frozen d 60 = Return (Some [0; 2; 1; 3]%nat, Some (Fin 0)) ∧
  tsp_nearest_neighbor d 0 = Return ([0; 1; 2; 3]%nat, 10 ^ 400) ∧
  test_small_cases frozen 4 d = Raise OverflowError ∧
  compare_all_approaches frozen 4 d 0 0 = Raise ZeroDivisionError.
Proof. vm_compute. done. Qed.

Example percent_at_the_limit :
  percent_field percent_limit 1 = Fixed 1 (quality percent_limit 1) ∧
  percent_field (percent_limit + 1) 1 = FixedInf 1 ∧
  percent_field (- percent_limit - 1) 1 = FixedNegInf 1 ∧
  quality_of (float_limit - 1) (Some (Fin 1)) = Return (FixedInf 1) ∧
  quality_of float_limit (Some (Fin 1)) = Raise OverflowError.
Proof. vm_compute. done. Qed.

(** ** Command line *)

(** X18: [main] runs a reporting mode exactly when the data file exists and
    the first argument is that mode's option; further arguments are
    ignored. *)
Theorem main_runs_mode_iff argv data_exists m :
  main argv data_exists = RunMode m
  ↔ data_exists = true ∧ ∃ prog rest, argv = prog :: mode_option m :: rest.
Proof.
  split.
  - destruct argv as [|prog [|option rest]]; [done..|]. simpl.
    destruct data_exists; [|done]. simpl.
    repeat case_decide; intros [= <-] || done; subst; split; eauto.
  - intros [-> (prog & rest & ->)]. by destruct m.
Qed.

(** ** Shape of the exact solver's result *)

Lemma bf_loop_no_distance time timeout start_time distances start perms st ro :
  bf_loop time timeout start_time distances start perms st = Return (ro, None) →
  ro = None.
Proof.
  revert st. induction perms as [|p perms IH]; intros st; [done|].
  rewrite bf_loop_cons. destruct (timeout <? _); [by intros [= <-]|].
  intros (c & _ & Hrun)%bind_Return. by eapply IH.
Qed.

(** X20: on any matrix of [int]s, square or not, a result of
    [tsp_brute_force] is either the pair [(None, None)] or a route together
    with an [int] distance; the route is [None] exactly when the distance
    is. *)
Theorem brute_force_result_shape distances time timeout ro o :
  tsp_brute_force time distances timeout = Return (ro, o) →
  (ro = None ∧ o = None) ∨ (∃ route dist, ro = Some route ∧ o = Some (Fin dist)).
Proof.
  intros Hrun. destruct o as [x|].
  - right. apply tsp_brute_force_first_min in Hrun
      as (perm & c & -> & -> & _). eauto.
  - left. split; [|done]. unfold tsp_brute_force in Hrun.
    by eapply bf_loop_no_distance.
Qed.

Lemma brute_force_result_shape_witness :
  (Some [0; 1; 2; 3]%nat = None ∧ Some (Fin 4) = None)
  ∨ (∃ route dist,
       Some [0; 1; 2; 3]%nat = Some route ∧ Some (Fin 4) = Some (Fin dist)).
Proof.
  apply (brute_force_result_shape m4 frozen 60). reflexivity.
Defined.
